(** * SLAM back end: the track database, pose chaining and pose fixing

    A shallow embedding of
    - [VAN_ex/code/Ex4/ex4.py]: [Track], [TracksDB] and [run_sequence];
    - [VAN_ex/code/Ex5/ex5.py]: [fix_ext_mat] and [relative_to_absolute_poses];
    - [VAN_ex/code/Ex6/ex6.py]: the relative covariance computed in [q6_1].

    Python integers are [Z]; a [dict] is a [gmap]; a one-dimensional numpy
    array is a [list]; a raised exception is the [Raise] branch of [result];
    the files on disk are a [gmap] from names to contents. Array entries
    are a type with the operations the code applies to them; [PrimFloat]
    gives the binary64 numbers of numpy's [float64] for concrete runs. *)

From Stdlib Require Import PrimFloat.
From Stdlib Require Import ZArith List Lia Ring Ascii.
From stdpp Require Import base option list sorting gmap strings.

Open Scope Z_scope.

(** A decimal literal in [float_scope] denotes the nearest binary64 number,
    as it does in Python. *)
Set Warnings "-inexact-float".

(** ** Exceptions *)

Inductive exn : Type :=
| KeyError | IndexError | ValueError | AttributeError | TypeError | LinAlgError
| OSError | PicklingError.

Inductive result (A : Type) : Type :=
| Ok (a : A)
| Raise (e : exn).
Arguments Ok {A} a.
Arguments Raise {A} e.

#[global] Instance result_ret : MRet result := fun A a => Ok a.
#[global] Instance result_bind : MBind result := fun A B f m =>
  match m with Ok a => f a | Raise e => Raise e end.

Definition of_option {A} (e : exn) (o : option A) : result A :=
  match o with Some a => Ok a | None => Raise e end.

(** [[f x for x in l]] where [f] may raise. *)
Fixpoint py_map {A B} (f : A -> result B) (l : list A) : result (list B) :=
  match l with
  | [] => Ok []
  | x :: l' => y ← f x; ys ← py_map f l'; Ok (y :: ys)
  end.

(** [[x for x in l if p x]] where [p] may raise. *)
Fixpoint py_filter {A} (p : A -> result bool) (l : list A) : result (list A) :=
  match l with
  | [] => Ok []
  | x :: l' => b ← p x; ys ← py_filter p l'; Ok (if b : bool then x :: ys else ys)
  end.

(** [any(p x for x in l)]: the generator is consumed up to the first hit. *)
Fixpoint py_any {A} (p : A -> result bool) (l : list A) : result bool :=
  match l with
  | [] => Ok false
  | x :: l' => b ← p x; if b : bool then Ok true else py_any p l'
  end.

(** [for x in l: s = body x s]. *)
Fixpoint py_for {A S} (body : A -> S -> result S) (l : list A) (s : S) : result S :=
  match l with
  | [] => Ok s
  | x :: l' => s' ← body x s; py_for body l' s'
  end.

(** [l[-1]]. *)
Definition py_last {A} (l : list A) : result A := of_option IndexError (last l).

(** [l.index(x)]: the first position of [x]. *)
Fixpoint py_index (l : list Z) (x : Z) : result nat :=
  match l with
  | [] => Raise ValueError
  | y :: l' => if bool_decide (y = x) then Ok 0%nat else i ← py_index l' x; Ok (S i)
  end.

(** [l[0]]. *)
Definition py_head {A} (l : list A) : result A := of_option IndexError (head l).

(** [zip] of three iterables stops with the shortest. *)
Fixpoint zip3 {A B C} (a : list A) (b : list B) (c : list C) : list (A * B * C) :=
  match a, b, c with
  | x :: a', y :: b', z :: c' => (x, y, z) :: zip3 a' b' c'
  | _, _, _ => []
  end.

Section SLAM.

(** ** Ex4: tracks *)

(** What a key point is comes from the front end (Ex3), which the track
    database only consumes: the element type of the inlier arrays, numpy's
    elementwise [==] on it, and the [pt] attribute of a [cv2.KeyPoint]. *)
Context {KeyPoint : Type}.
Variable kp_match : KeyPoint -> KeyPoint -> bool.
Context {Coord : Type}.
Variable pt : KeyPoint -> Coord * Coord.

(** [kp in arr], numpy's [(arr == kp).any()]. *)
Definition np_contains (arr : list KeyPoint) (k : KeyPoint) : bool :=
  existsb (fun x => kp_match x k) arr.

(** [np.where(arr == kp)[0][0]]. *)
Fixpoint np_where_first (arr : list KeyPoint) (k : KeyPoint) : result nat :=
  match arr with
  | [] => Raise IndexError
  | x :: arr' => if kp_match x k then Ok 0%nat else i ← np_where_first arr' k; Ok (S i)
  end.

(** [arr[idx]] with a list of positions. *)
Definition np_take (arr : list KeyPoint) (idx : list nat) : result (list KeyPoint) :=
  py_map (fun i => of_option IndexError (arr !! i)) idx.

(** A value of a track's [kp] dict. [extend_tracks] and [add_frame] store a
    tuple of two arrays; [get_feature_locations] reads a [.pt], which only
    a single key point has. *)
Inductive KpEntry : Type :=
| KpPair (left right : list KeyPoint)
| KpPoint (k : KeyPoint).

(** [e[0]] and [e[1]]. *)
Definition entry_left (e : KpEntry) : result (list KeyPoint) :=
  match e with KpPair l _ => Ok l | KpPoint _ => Raise TypeError end.
Definition entry_right (e : KpEntry) : result (list KeyPoint) :=
  match e with KpPair _ r => Ok r | KpPoint _ => Raise TypeError end.
(** [e.pt]. *)
Definition entry_pt (e : KpEntry) : result (Coord * Coord) :=
  match e with KpPair _ _ => Raise AttributeError | KpPoint k => Ok (pt k) end.

Record Track : Type := mkTrack {
  track_id : Z;
  frame_ids : list Z;
  kp : gmap Z KpEntry
}.

(** Every [Track] object is held under one key of [tracks]: [extend_tracks]
    builds each with a list and a dict of its own. *)
Record TracksDB : Type := mkTracksDB {
  tracks : gmap Z Track;
  db_frame_ids : list Z;
  track_ids : list Z;
  db_track_id : Z
}.

Definition TracksDB_init : TracksDB :=
  {| tracks := ∅; db_frame_ids := []; track_ids := []; db_track_id := 0 |}.

Definition Inliers : Type := list KeyPoint * list KeyPoint.

(** [self.tracks[track_id]] and [track.kp[frame_id]]. *)
Definition get_track (db : TracksDB) (tid : Z) : result Track :=
  of_option KeyError (tracks db !! tid).
Definition get_kp (t : Track) (f : Z) : result KpEntry :=
  of_option KeyError (kp t !! f).

Definition add_frame (frame_id : Z) (curr_kp next_kp : Inliers) (self : Track)
  : result Track :=
  lst ← py_last (frame_ids self);
  e ← get_kp self lst;
  l ← entry_left e;
  let kp_to_keep := filter (fun k => np_contains (fst curr_kp) k = true) l in
  idx_to_keep ← py_map (np_where_first (fst curr_kp)) kp_to_keep;
  nl ← np_take (fst next_kp) idx_to_keep;
  nr ← np_take (snd next_kp) idx_to_keep;
  Ok {| track_id := track_id self;
        frame_ids := frame_ids self ++ [frame_id];
        kp := <[frame_id := KpPair nl nr]> (kp self) |}.

Definition add_track (track : Track) (self : TracksDB) : TracksDB :=
  {| tracks := <[db_track_id self := track]> (tracks self);
     db_frame_ids := db_frame_ids self ++ frame_ids track;
     track_ids := track_ids self ++ [db_track_id self];
     db_track_id := db_track_id self + 1 |}.

Definition add_new_track (track : Track) (self : TracksDB) : TracksDB :=
  {| tracks := <[track_id track := track]> (tracks self);
     db_frame_ids := db_frame_ids self ++ frame_ids track;
     track_ids := track_ids self ++ [track_id track];
     db_track_id := db_track_id self |}.

Definition get_new_id (self : TracksDB) : Z * TracksDB :=
  (db_track_id self,
   {| tracks := tracks self; db_frame_ids := db_frame_ids self;
      track_ids := track_ids self; db_track_id := db_track_id self + 1 |}).

Definition get_track_ids (frame_id : Z) (self : TracksDB) : result (list Z) :=
  py_filter (fun tid => t ← get_track self tid;
                        Ok (bool_decide (frame_id ∈ frame_ids t)))
            (track_ids self).

Definition get_frame_ids (tid : Z) (self : TracksDB) : result (list Z) :=
  t ← get_track self tid; Ok (frame_ids t).

Definition get_feature_locations (frame_id tid : Z) (self : TracksDB)
  : result (option (Coord * Coord)) :=
  track ← get_track self tid;
  if bool_decide (frame_id ∈ frame_ids track) then
    frame_index ← py_index (frame_ids track) frame_id;
    e ← get_kp track (Z.of_nat frame_index);
    p ← entry_pt e;
    Ok (Some p)
  else Ok None.

(** The two comprehensions that select [relevant_tracks]. *)
Definition seen_at (frame_id : Z) (self : TracksDB) (tid : Z) : result bool :=
  t ← get_track self tid; Ok (bool_decide (frame_id - 1 ∈ frame_ids t)).

Definition supported_left (frame_id : Z) (curr : Inliers) (self : TracksDB) (tid : Z)
  : result bool :=
  py_any (fun k => t ← get_track self tid; e ← get_kp t (frame_id - 1);
                   l ← entry_left e; Ok (np_contains l k)) (fst curr).

Definition supported_right (frame_id : Z) (curr : Inliers) (self : TracksDB) (tid : Z)
  : result bool :=
  py_any (fun k => t ← get_track self tid; e ← get_kp t (frame_id - 1);
                   r ← entry_right e; Ok (np_contains r k)) (snd curr).

Definition supported (frame_id : Z) (curr : Inliers) (self : TracksDB) (tid : Z)
  : result bool :=
  b ← supported_left frame_id curr self tid;
  if b : bool then supported_right frame_id curr self tid else Ok false.

Definition relevant_tracks (frame_id : Z) (curr : Inliers) (self : TracksDB)
  : result (list Z) :=
  r ← py_filter (seen_at frame_id self) (track_ids self);
  py_filter (supported frame_id curr self) r.

(** The body of the loop over [relevant_tracks]: the track object is
    extended in place. *)
Definition extend_one (frame_id : Z) (curr next : Inliers) (tid : Z) (self : TracksDB)
  : result TracksDB :=
  track ← get_track self tid;
  track' ← add_frame frame_id curr next track;
  Ok {| tracks := <[tid := track']> (tracks self);
        db_frame_ids := db_frame_ids self;
        track_ids := track_ids self;
        db_track_id := db_track_id self |}.

(** [relevant_kp.update(self.tracks[track_id].kp)]. *)
Definition collect_kp (self : TracksDB) (tid : Z) (acc : gmap Z KpEntry)
  : result (gmap Z KpEntry) :=
  t ← get_track self tid; Ok (kp t ∪ acc).

Definition extend_tracks (frame_id : Z) (curr next : Inliers) (self : TracksDB)
  : result TracksDB :=
  rel ← relevant_tracks frame_id curr self;
  self1 ← py_for (extend_one frame_id curr next) rel self;
  relevant_kp ← py_for (collect_kp self1) rel ∅;
  let new_matches := KpPair (fst next) (snd next) in
  let '(new_id, self2) := get_new_id self1 in
  Ok (add_new_track {| track_id := new_id; frame_ids := [frame_id];
                       kp := {[frame_id := new_matches]} |} self2).

(** Ingestion: one [extend_tracks] per processed frame pair, as the loop of
    [run_sequence] issues them; an exception ends the run. *)
Definition Call : Type := Z * Inliers * Inliers.

Fixpoint ingest (calls : list Call) (db : TracksDB) : result TracksDB :=
  match calls with
  | [] => Ok db
  | (f, curr, next) :: rest => db' ← extend_tracks f curr next db; ingest rest db'
  end.

Definition call_frame (c : Call) : Z := fst (fst c).

(** [ex3_utils.track_movement_successive([idx, idx + 1])], the front end:
    the inliers of the frame pair, or nothing when it finds no pose. *)
Variable track_movement_successive : Z -> option (Inliers * Inliers).

Definition call_of_frame (idx : Z) : option Call :=
  match track_movement_successive idx with
  | Some (curr, next) => Some (idx, curr, next)
  | None => None
  end.

(** The calls that the loop of [run_sequence] over
    [range(start_frame, end_frame)] issues: one for every frame pair that
    the front end accepts. *)
Definition run_sequence_calls (start_frame end_frame : Z) : list Call :=
  omap call_of_frame (seqZ start_frame (end_frame - start_frame)).

(** ** Ex4: serialization *)

(** [pickle] and the file system are collaborators of this code. A file
    holds a [Blob], its bytes. [pickle.dump(obj, file)] writes
    [pickle.dumps(obj)] to the file, and raises on an object that cannot
    be pickled; [pickle.load(file)] is [pickle.loads] of what the file
    holds, and reconstructs the object that [pickle.dumps] has written,
    as the library documents. *)
Context {Blob : Type}.
Variable pickle_dumps : TracksDB -> result Blob.
Variable pickle_loads : Blob -> result TracksDB.
Hypothesis pickle_loads_dumps : forall db b,
  pickle_dumps db = Ok b -> pickle_loads b = Ok db.

(** The files by name. [open_wb] tells whether [open(file_name, 'wb')]
    succeeds: the directory exists and the file may be written. *)
Definition FileSystem : Type := gmap string Blob.
Variable open_wb : string -> bool.

(** [with open(file_name, 'wb') as file: pickle.dump(self, file)]. An
    exception of [pickle.dump] leaves the run; the emptied file it leaves
    behind is then no longer looked at. *)
Definition serialize (file_name : string) (self : TracksDB) (fs : FileSystem)
  : result FileSystem :=
  if open_wb file_name then
    b ← pickle_dumps self;
    Ok (<[file_name := b]> fs)
  else Raise OSError.

(** [open(file_name, 'rb')] raises [FileNotFoundError], an [OSError], when
    there is no such file. *)
Definition deserialize (file_name : string) (fs : FileSystem) : result TracksDB :=
  file ← of_option OSError (fs !! file_name);
  pickle_loads file.

(** [run_sequence]: the loop from a new [TracksDB], then
    [db.serialize('tracks_db.pkl')]; it returns the store, and the file
    system holds the file written. The [print] of each step is left out. *)
Definition run_sequence (start_frame end_frame : Z) (fs : FileSystem)
  : result (TracksDB * FileSystem) :=
  db ← ingest (run_sequence_calls start_frame end_frame) TracksDB_init;
  fs' ← serialize "tracks_db.pkl"%string db fs;
  Ok (db, fs').

(** ** Ex5: chaining relative poses *)

(** [gtsam.Pose3] and [gtsam.Point3] with the two methods the function
    calls; the optimizer library is a collaborator of this code. *)
Context {Pose3 Point3 : Type}.
Variable compose : Pose3 -> Pose3 -> Pose3.
Variable transformFrom : Pose3 -> Point3 -> Point3.

(** The state of the loop: [base_camera], [base_init] and the three
    accumulators. *)
Record Chain : Type := mkChain {
  base_camera : Pose3;
  base_init : Pose3;
  abs_points : list Point3;
  abs_cameras : list Pose3;
  abs_init : list Pose3
}.

Definition chain_step (s : Chain) (b : Pose3 * list Point3 * Pose3) : Chain :=
  let '(bundle_camera, bundle_points, bundle_init) := b in
  let base_camera' := compose (base_camera s) bundle_camera in
  let abs_cameras' := abs_cameras s ++ [base_camera'] in
  let base_init' := compose (base_init s) bundle_init in
  let abs_init' := abs_init s ++ [base_init'] in
  let bundle_abs_points := map (transformFrom base_camera') bundle_points in
  {| base_camera := base_camera';
     base_init := base_init';
     abs_points := abs_points s ++ bundle_abs_points;
     abs_cameras := abs_cameras';
     abs_init := abs_init' |}.

Definition relative_to_absolute_poses
    (cameras : list Pose3) (points : list (list Point3)) (init_cams : list Pose3)
  : result (list Pose3 * list Point3 * list Pose3) :=
  base_camera0 ← py_head cameras;
  base_init0 ← py_head init_cams;
  let s0 := {| base_camera := base_camera0; base_init := base_init0;
               abs_points := []; abs_cameras := [base_camera0];
               abs_init := [base_init0] |} in
  let s := fold_left chain_step (zip3 (tail cameras) points (tail init_cams)) s0 in
  Ok (abs_cameras s, abs_points s, abs_init s).

(** ** Ex5: [fix_ext_mat] *)

(** Matrix entries: a type [F] with zero, one and the operations that the
    code applies, numpy's [float64] in the program. Nothing is assumed of
    the operations: binary64 sums and products round, so they obey no ring
    law. The definitions below use the operations only. *)
Context {F : Type}.
Variables (f0 f1 : F) (fadd fmul fsub : F -> F -> F) (fopp : F -> F).

Declare Scope F_scope.
Delimit Scope F_scope with F.
Local Infix "+" := fadd : F_scope.
Local Infix "*" := fmul : F_scope.
Local Infix "-" := fsub : F_scope.
Local Notation "- x" := (fopp x) : F_scope.
Local Notation "0" := f0 : F_scope.
Local Notation "1" := f1 : F_scope.

Definition Matrix : Type := list (list F).
Definition Vector : Type := list F.

(** [m.shape] of a two-dimensional array. *)
Definition shape (m : Matrix) : nat * nat :=
  (length m, match m with [] => 0%nat | r :: _ => length r end).

(** A list of rows is an array when the rows have one length. *)
Definition rectangular (m : Matrix) : Prop :=
  Forall (fun r => length r = snd (shape m)) m.

(** [m[:, :n]] and [m[:, j]]. *)
Definition cols_upto (n : nat) (m : Matrix) : Matrix := map (take n) m.
Definition col (j : nat) (m : Matrix) : result Vector :=
  py_map (fun r => of_option IndexError (r !! j)) m.

(** [m.T] of an array with [n] columns. *)
Definition transpose (n : nat) (m : Matrix) : Matrix :=
  map (fun j => omap (fun r => r !! j) m) (seq 0 n).

Definition T (m : Matrix) : Matrix := transpose (snd (shape m)) m.

(** [-m] *)
Definition mneg (m : Matrix) : Matrix := map (map fopp) m.

Definition dot (u v : Vector) : F :=
  fold_right fadd f0 (zip_with fmul u v).

(** [m @ v] for a vector [v]: the inner dimensions must agree. *)
Definition matvec (m : Matrix) (v : Vector) : result Vector :=
  if bool_decide (snd (shape m) = length v) then Ok (map (fun r => dot r v) m)
  else Raise ValueError.

(** [v.reshape(n, 1)] *)
Definition reshape_col (n : nat) (v : Vector) : result Matrix :=
  if bool_decide (length v = n) then Ok (map (fun x => [x]) v) else Raise ValueError.

(** [np.hstack((a, b))]: the row counts must agree. *)
Definition hstack (a b : Matrix) : result Matrix :=
  if bool_decide (length a = length b) then Ok (zip_with app a b) else Raise ValueError.

Definition fix_ext_mat (ext_mat : Matrix) : result Matrix :=
  let R := cols_upto 3 ext_mat in
  t ← col 3 ext_mat;
  new_t ← matvec (mneg (T R)) t;
  new_col ← reshape_col 3 new_t;
  hstack (T R) new_col.



(** ** Ex6: the covariance of the first window *)

(** The optimizer (gtsam) and numpy's [linalg.inv] are collaborators.
    [jointMarginalInformation] stands for the query followed by
    [.fullMatrix()]; it raises when a key is no variable of the solved
    graph. The keys [symbol('c', i)] are the [Pose3] variables of a window
    and a [Pose3] has six degrees of freedom, so the joint matrix of
    distinct camera keys has six rows and columns per key. Inverting a
    matrix keeps its shape. *)
Context {Marginals Key : Type}.
Variable symbol : ascii -> Z -> Key.
Variable jointMarginalInformation : Marginals -> list Key -> result Matrix.
Variable linalg_inv : Matrix -> result Matrix.
Hypothesis jointMarginalInformation_shape : forall m (frames : list Z) a,
  NoDup frames ->
  jointMarginalInformation m (map (symbol "c"%char) frames) = Ok a ->
  shape a = (6 * length frames, 6 * length frames)%nat.
Hypothesis linalg_inv_shape : forall a b,
  linalg_inv a = Ok b -> shape b = shape a.

(** The lines of [q6_1] that compute [rel_cov] from the marginals of the
    solved window. *)
Definition q6_1_rel_cov (marginals : Marginals) : result Matrix :=
  let c0 := 0 in
  let ck := 7 in
  let keys := [symbol "c"%char c0; symbol "c"%char ck] in
  marg_cov_mat ← jointMarginalInformation marginals keys;
  linalg_inv marg_cov_mat.

(** ** Invariants of the track database *)

Definition is_pair (e : KpEntry) : Prop := exists l r, e = KpPair l r.

(** A track as [extend_tracks] builds it: it has a frame, every frame of
    its list has an entry in [kp], and every entry is a pair of arrays. *)
Definition track_wf (t : Track) : Prop :=
  frame_ids t <> [] /\
  (forall g, g ∈ frame_ids t -> is_Some (kp t !! g)) /\
  map_Forall (fun _ e => is_pair e) (kp t).

(** A store as [extend_tracks] builds it from the empty one. *)
Definition db_wf (db : TracksDB) : Prop :=
  0 <= db_track_id db /\
  track_ids db = seqZ 0 (db_track_id db) /\
  (forall tid, is_Some (tracks db !! tid) <-> tid ∈ track_ids db) /\
  map_Forall (fun _ t => track_wf t) (tracks db).

(** The ids listed in [track_ids] are the keys of [tracks]. *)
Definition db_consistent (db : TracksDB) : Prop :=
  forall tid, tid ∈ track_ids db <-> is_Some (tracks db !! tid).

(** Every position of the current arrays exists in the next ones: the
    front end returns the four arrays of one set of matches. *)
Definition aligned (curr next : Inliers) : Prop :=
  (length (fst curr) <= length (fst next))%nat /\
  (length (fst curr) <= length (snd next))%nat.

Definition frames_below (b : Z) (db : TracksDB) : Prop :=
  map_Forall (fun _ t => StronglySorted Z.lt (frame_ids t) /\
                         Forall (fun g => g < b) (frame_ids t)) (tracks db).

(** [t'] is [t] after a call for frame [f]: same id, a longer frame list,
    and the same entry at every other frame. *)
Definition grows (f : Z) (t t' : Track) : Prop :=
  track_id t' = track_id t /\
  frame_ids t `prefix_of` frame_ids t' /\
  (forall g, g <> f -> kp t' !! g = kp t !! g).

(** The track a call creates. *)
Definition new_track (tid frame_id : Z) (next : Inliers) : Track :=
  {| track_id := tid; frame_ids := [frame_id];
     kp := {[frame_id := KpPair (fst next) (snd next)]} |}.

(** ** Further code of Ex5 *)

(** [range(a, b)] and [l[i]] with Python's negative indices. *)
Definition py_range (a b : Z) : list Z := seqZ a (b - a).

Definition py_get {A} (l : list A) (i : Z) : result A :=
  let j := if bool_decide (i < 0) then i + Z.of_nat (length l) else i in
  if bool_decide (j < 0) then Raise IndexError
  else of_option IndexError (l !! Z.to_nat j).

Definition get_bundle_windows (keyframes : list Z) : result (list (list Z)) :=
  py_for (fun i bundle_windows =>
            a ← py_get keyframes i;
            b ← py_get keyframes (i + 1);
            Ok (bundle_windows ++ [py_range a (b + 1)]))
         (py_range 0 (Z.of_nat (length keyframes) - 1)) [].

(** [camera.rotation().matrix()] and [camera.translation()] of a
    [gtsam.Pose3]. *)
Variable rotation_matrix : Pose3 -> Matrix.
Variable translation : Pose3 -> Vector.

Definition cameras_to_locations (abs_cameras : list Pose3) : result (list Vector) :=
  py_for (fun camera cam_locs =>
            let R := rotation_matrix camera in
            let t := translation camera in
            loc ← matvec (mneg (T R)) t;
            Ok (cam_locs ++ [loc]))
         abs_cameras [].

(** ** Vocabulary of the further properties *)

(** The test of [extend_tracks] on a track: it has the previous frame, and
    its entry there shares a left key point with the current left array
    and a right key point with the current right array. *)
Definition continues (f : Z) (curr : Inliers) (t : Track) : Prop :=
  f - 1 ∈ frame_ids t /\
  exists l r, kp t !! (f - 1) = Some (KpPair l r) /\
    (exists k, k ∈ fst curr /\ np_contains l k = true) /\
    (exists k, k ∈ snd curr /\ np_contains r k = true).



(** [[R|t]] as one array. *)
Definition with_column (R : Matrix) (t : Vector) : Matrix :=
  zip_with (fun r x => r ++ [x]) R t.

(** A list of consecutive integers. *)
Definition consecutive (l : list Z) : Prop :=
  exists c, l = seqZ c (Z.of_nat (length l)).

Definition frames_consecutive_below (b : Z) (db : TracksDB) : Prop :=
  map_Forall (fun _ t => consecutive (frame_ids t) /\
                         Forall (fun g => g < b) (frame_ids t)) (tracks db).

(** The frames from the [i]-th keyframe to the next one, both included. *)
Definition window_at (keyframes : list Z) (i : nat) : list Z :=
  py_range (default 0 (keyframes !! i)) (default 0 (keyframes !! S i) + 1).

(** * Properties *)

(** ** The exception monad and the comprehension helpers *)

Lemma bind_Ok {A B} (m : result A) (k : A -> result B) (b : B) :
  m ≫= k = Ok b <-> exists a, m = Ok a /\ k a = Ok b.
Proof.
  destruct m as [a|e]; simpl; split.
  - intros H; exists a; auto.
  - intros (a' & Ha & Hk); congruence.
  - discriminate.
  - intros (a' & Ha & _); discriminate.
Qed.

Lemma of_option_Ok {A} (e : exn) (o : option A) (a : A) :
  of_option e o = Ok a <-> o = Some a.
Proof. destruct o; simpl; split; congruence. Qed.

Lemma py_filter_total {A} (p : A -> result bool) (l : list A) :
  (forall x, x ∈ l -> exists b, p x = Ok b) ->
  exists l', py_filter p l = Ok l'.
Proof.
  induction l as [|x l IH]; intros Hp; simpl.
  - eauto.
  - destruct (Hp x) as [b Hb]; [left|].
    destruct IH as [l' Hl']; [intros y Hy; apply Hp; by right|].
    rewrite Hb, Hl'; simpl; eauto.
Qed.

Lemma py_filter_elem {A} (p : A -> result bool) (l l' : list A) (x : A) :
  py_filter p l = Ok l' ->
  x ∈ l' <-> x ∈ l /\ p x = Ok true.
Proof.
  revert l'; induction l as [|y l IH]; intros l' H; simpl in H.
  - injection H as <-. split; [intros Hx; inversion Hx | intros [Hx _]; inversion Hx].
  - apply bind_Ok in H as (b & Hb & H).
    apply bind_Ok in H as (ys & Hys & H).
    injection H as <-. specialize (IH ys Hys).
    destruct b.
    + rewrite !elem_of_cons, IH. split.
      * intros [->|[? ?]]; auto.
      * intros [[->|?] ?]; auto.
    + rewrite elem_of_cons, IH. split.
      * intros [? ?]; auto.
      * intros [[->|?] ?]; [congruence | auto].
Qed.

Lemma py_filter_sublist {A} (p : A -> result bool) (l l' : list A) :
  py_filter p l = Ok l' -> l' `sublist_of` l.
Proof.
  revert l'; induction l as [|y l IH]; intros l' H; simpl in H.
  - injection H as <-. constructor.
  - apply bind_Ok in H as (b & Hb & H).
    apply bind_Ok in H as (ys & Hys & H).
    injection H as <-. specialize (IH ys Hys).
    destruct b; [by apply sublist_skip | by apply sublist_cons].
Qed.

Lemma py_any_total {A} (p : A -> result bool) (l : list A) :
  (forall x, x ∈ l -> exists b, p x = Ok b) ->
  exists b, py_any p l = Ok b.
Proof.
  induction l as [|x l IH]; intros Hp; simpl.
  - eauto.
  - destruct (Hp x) as [b Hb]; [left|]. rewrite Hb; simpl.
    destruct b; [eauto|]. apply IH. intros y Hy; apply Hp; by right.
Qed.

Lemma py_map_total {A B} (g : A -> result B) (l : list A) :
  (forall x, x ∈ l -> exists y, g x = Ok y) ->
  exists l', py_map g l = Ok l'.
Proof.
  induction l as [|x l IH]; intros Hg; simpl.
  - eauto.
  - destruct (Hg x) as [y Hy]; [left|].
    destruct IH as [l' Hl']; [intros z Hz; apply Hg; by right|].
    rewrite Hy, Hl'; simpl; eauto.
Qed.

Lemma py_map_Forall {A B} (g : A -> result B) (P : B -> Prop) (l : list A) (l' : list B) :
  (forall x y, x ∈ l -> g x = Ok y -> P y) ->
  py_map g l = Ok l' -> Forall P l'.
Proof.
  revert l'; induction l as [|x l IH]; intros l' Hg H; simpl in H.
  - injection H as <-. constructor.
  - apply bind_Ok in H as (y & Hy & H).
    apply bind_Ok in H as (ys & Hys & H).
    injection H as <-. constructor.
    + eapply Hg; [left | done].
    + apply IH; [|done]. intros z w Hz; apply Hg; by right.
Qed.

(** A loop keeps what every iteration keeps. *)
Lemma py_for_invariant {A S} (body : A -> S -> result S) (I : S -> Prop)
    (l : list A) (s s' : S) :
  (forall x s1 s2, x ∈ l -> I s1 -> body x s1 = Ok s2 -> I s2) ->
  I s -> py_for body l s = Ok s' -> I s'.
Proof.
  revert s; induction l as [|x l IH]; intros s Hb Hs H; simpl in H.
  - by injection H as <-.
  - apply bind_Ok in H as (s1 & Hs1 & H).
    eapply IH; [| |exact H].
    + intros y t1 t2 Hy; apply Hb; by right.
    + eapply Hb; [left | exact Hs | exact Hs1].
Qed.

(** A loop runs to its end when every iteration does, from any state the
    invariant allows. *)
Lemma py_for_total {A S} (body : A -> S -> result S) (I : S -> Prop)
    (l : list A) (s : S) :
  (forall x s1, x ∈ l -> I s1 -> exists s2, body x s1 = Ok s2 /\ I s2) ->
  I s -> exists s', py_for body l s = Ok s' /\ I s'.
Proof.
  revert s; induction l as [|x l IH]; intros s Hb Hs; simpl.
  - eauto.
  - destruct (Hb x s) as (s1 & Hs1 & HI); [left | done |].
    rewrite Hs1; simpl. apply IH; [|done].
    intros y t1 Hy; apply Hb; by right.
Qed.

(** ** [Track.add_frame] *)

Lemma np_where_first_lt (arr : list KeyPoint) (k : KeyPoint) (i : nat) :
  np_where_first arr k = Ok i -> (i < length arr)%nat.
Proof.
  revert i; induction arr as [|x arr IH]; intros i H; simpl in H; [discriminate|].
  destruct (kp_match x k).
  - injection H as <-. simpl; lia.
  - apply bind_Ok in H as (j & Hj & H). injection H as <-.
    apply IH in Hj. simpl; lia.
Qed.

Lemma np_where_first_total (arr : list KeyPoint) (k : KeyPoint) :
  np_contains arr k = true -> exists i, np_where_first arr k = Ok i.
Proof.
  unfold np_contains.
  induction arr as [|x arr IH]; simpl; [discriminate|].
  destruct (kp_match x k); simpl; [eauto|].
  intros H. destruct (IH H) as [i Hi]. rewrite Hi; simpl; eauto.
Qed.

Lemma np_take_total (arr : list KeyPoint) (idx : list nat) :
  Forall (fun i => (i < length arr)%nat) idx ->
  exists l, np_take arr idx = Ok l.
Proof.
  intros Hidx. apply py_map_total. intros i Hi.
  rewrite Forall_forall in Hidx. specialize (Hidx i Hi).
  destruct (lookup_lt_is_Some_2 arr i Hidx) as [y Hy].
  rewrite Hy; simpl; eauto.
Qed.

Lemma add_frame_inv (f : Z) (curr next : Inliers) (t t' : Track) :
  add_frame f curr next t = Ok t' ->
  exists nl nr, t' = {| track_id := track_id t;
                        frame_ids := frame_ids t ++ [f];
                        kp := <[f := KpPair nl nr]> (kp t) |}.
Proof.
  unfold add_frame. intros H.
  apply bind_Ok in H as (lst & _ & H).
  apply bind_Ok in H as (e & _ & H).
  apply bind_Ok in H as (l & _ & H).
  apply bind_Ok in H as (idx & _ & H).
  apply bind_Ok in H as (nl & _ & H).
  apply bind_Ok in H as (nr & _ & H).
  injection H as <-. eauto.
Qed.

Lemma add_frame_grows (f : Z) (curr next : Inliers) (t t' : Track) :
  add_frame f curr next t = Ok t' -> grows f t t'.
Proof.
  intros H. apply add_frame_inv in H as (nl & nr & ->).
  split; [done|]. split; simpl.
  - by apply prefix_app_r.
  - intros g Hg. by rewrite lookup_insert_ne.
Qed.

Lemma add_frame_wf (f : Z) (curr next : Inliers) (t t' : Track) :
  track_wf t -> add_frame f curr next t = Ok t' -> track_wf t'.
Proof.
  intros (Hne & Hdom & Hpairs) H.
  apply add_frame_inv in H as (nl & nr & ->).
  split; [|split]; simpl.
  - intros Hnil. by apply app_eq_nil in Hnil as [_ ?].
  - intros g Hg. destruct (decide (g = f)) as [->|Hgf].
    + rewrite lookup_insert_eq. eauto.
    + rewrite lookup_insert_ne by done. apply Hdom.
      apply elem_of_app in Hg as [Hg|Hg]; [done|].
      apply list_elem_of_singleton in Hg. congruence.
  - apply map_Forall_insert_2; [|done]. by exists nl, nr.
Qed.

Lemma add_frame_total (f : Z) (curr next : Inliers) (t : Track) :
  track_wf t -> aligned curr next ->
  exists t', add_frame f curr next t = Ok t'.
Proof.
  intros (Hne & Hdom & Hpairs) [Hl Hr]. unfold add_frame.
  destruct (last (frame_ids t)) as [lst|] eqn:Hlast;
    [|by apply last_None in Hlast].
  unfold py_last; rewrite Hlast; simpl.
  destruct (Hdom lst) as [e He].
  { apply last_Some in Hlast as [l' ->]. apply elem_of_app; right. left. }
  unfold get_kp; rewrite He; simpl.
  destruct (Hpairs lst e He) as (l & r & ->); simpl.
  set (keep := filter (fun k => np_contains (fst curr) k = true) l).
  destruct (py_map_total (np_where_first (fst curr)) keep) as [idx Hidx].
  { intros k Hk. apply list_elem_of_filter in Hk as [Hk _].
    by apply np_where_first_total. }
  rewrite Hidx; simpl.
  assert (Forall (fun i => (i < length (fst curr))%nat) idx) as Hlt.
  { eapply py_map_Forall; [|exact Hidx].
    intros k i _ Hi. by eapply np_where_first_lt. }
  destruct (np_take_total (fst next) idx) as [nl Hnl].
  { eapply Forall_impl; [exact Hlt|]. simpl; intros; lia. }
  destruct (np_take_total (snd next) idx) as [nr Hnr].
  { eapply Forall_impl; [exact Hlt|]. simpl; intros; lia. }
  rewrite Hnl; simpl. rewrite Hnr; simpl. eauto.
Qed.

(** ** The loop of [extend_tracks] over the relevant tracks *)

Lemma grows_refl (f : Z) (t : Track) : grows f t t.
Proof. by repeat split. Qed.

Lemma grows_trans (f : Z) (t1 t2 t3 : Track) :
  grows f t1 t2 -> grows f t2 t3 -> grows f t1 t3.
Proof.
  intros (Hi1 & Hp1 & Hk1) (Hi2 & Hp2 & Hk2). split; [congruence|]. split.
  - by etrans.
  - intros g Hg. rewrite Hk2, Hk1; done.
Qed.

Lemma extend_one_inv (f : Z) (curr next : Inliers) (tid : Z) (db db' : TracksDB) :
  extend_one f curr next tid db = Ok db' ->
  exists t t', tracks db !! tid = Some t /\ add_frame f curr next t = Ok t' /\
    db' = {| tracks := <[tid := t']> (tracks db);
             db_frame_ids := db_frame_ids db;
             track_ids := track_ids db;
             db_track_id := db_track_id db |}.
Proof.
  unfold extend_one. intros H.
  apply bind_Ok in H as (t & Ht & H). apply of_option_Ok in Ht.
  apply bind_Ok in H as (t' & Ht' & H).
  injection H as <-. eauto.
Qed.

Lemma extend_loop_fields (f : Z) (curr next : Inliers) (rel : list Z) (db db1 : TracksDB) :
  py_for (extend_one f curr next) rel db = Ok db1 ->
  db_frame_ids db1 = db_frame_ids db /\ track_ids db1 = track_ids db /\
  db_track_id db1 = db_track_id db.
Proof.
  apply (py_for_invariant _ (fun s => db_frame_ids s = db_frame_ids db /\
    track_ids s = track_ids db /\ db_track_id s = db_track_id db)); [|done].
  intros tid s1 s2 _ Hs1 H.
  apply extend_one_inv in H as (t & t' & _ & _ & ->). exact Hs1.
Qed.

Lemma extend_loop_untouched (f : Z) (curr next : Inliers) (rel : list Z)
    (db db1 : TracksDB) (tid : Z) :
  tid ∉ rel ->
  py_for (extend_one f curr next) rel db = Ok db1 ->
  tracks db1 !! tid = tracks db !! tid.
Proof.
  intros Hnot.
  apply (py_for_invariant _ (fun s => tracks s !! tid = tracks db !! tid)); [|done].
  intros x s1 s2 Hx Hs1 H.
  apply extend_one_inv in H as (t & t' & _ & _ & ->). simpl.
  rewrite lookup_insert_ne; [done|]. intros ->. by apply Hnot.
Qed.

Lemma extend_loop_grows (f : Z) (curr next : Inliers) (rel : list Z) (db db1 : TracksDB) :
  py_for (extend_one f curr next) rel db = Ok db1 ->
  forall tid,
    (tracks db !! tid = None -> tracks db1 !! tid = None) /\
    (forall t, tracks db !! tid = Some t ->
       exists t', tracks db1 !! tid = Some t' /\ grows f t t').
Proof.
  intros H tid. revert H.
  apply (py_for_invariant _ (fun s =>
    (tracks db !! tid = None -> tracks s !! tid = None) /\
    (forall t, tracks db !! tid = Some t ->
       exists t', tracks s !! tid = Some t' /\ grows f t t'))).
  - intros x s1 s2 _ [Hnone Hsome] H.
    apply extend_one_inv in H as (t & t' & Ht & Ht' & ->). simpl.
    destruct (decide (x = tid)) as [->|Hne].
    + rewrite lookup_insert_eq. split.
      * intros Hn. rewrite (Hnone Hn) in Ht. discriminate.
      * intros t0 Ht0. destruct (Hsome t0 Ht0) as (t1 & Ht1 & Hg).
        exists t'. split; [done|]. eapply grows_trans; [exact Hg|].
        rewrite Ht in Ht1. injection Ht1 as ->. by eapply add_frame_grows.
    + rewrite lookup_insert_ne by done. by split.
  - split; [done|]. intros t Ht. exists t. split; [done | apply grows_refl].
Qed.

Lemma extend_loop_wf (f : Z) (curr next : Inliers) (rel : list Z) (db db1 : TracksDB) :
  map_Forall (fun _ t => track_wf t) (tracks db) ->
  py_for (extend_one f curr next) rel db = Ok db1 ->
  map_Forall (fun _ t => track_wf t) (tracks db1).
Proof.
  apply (py_for_invariant _ (fun s => map_Forall (fun _ t => track_wf t) (tracks s))).
  intros x s1 s2 _ Hs1 H.
  apply extend_one_inv in H as (t & t' & Ht & Ht' & ->). simpl.
  apply map_Forall_insert_2; [|done].
  eapply add_frame_wf; [|exact Ht']. by eapply Hs1.
Qed.

(** With no id listed twice, a track gets at most one new frame. *)
Lemma extend_loop_once (f : Z) (curr next : Inliers) (rel : list Z) (db db1 : TracksDB) :
  NoDup rel ->
  py_for (extend_one f curr next) rel db = Ok db1 ->
  forall tid t1, tracks db1 !! tid = Some t1 ->
    exists t, tracks db !! tid = Some t /\
      (frame_ids t1 = frame_ids t \/ frame_ids t1 = frame_ids t ++ [f]).
Proof.
  revert db; induction rel as [|x rel IH]; intros db Hnd H tid t1 Ht1; simpl in H.
  - injection H as <-. eauto.
  - apply NoDup_cons in Hnd as [Hx Hnd].
    apply bind_Ok in H as (db' & Hone & H).
    pose proof (extend_loop_untouched _ _ _ _ _ _ x Hx H) as Hsame.
    apply extend_one_inv in Hone as (t & t' & Ht & Ht' & ->). simpl in *.
    destruct (decide (tid = x)) as [->|Hne].
    + rewrite Hsame, lookup_insert_eq in Ht1. injection Ht1 as <-.
      exists t. split; [done|].
      apply add_frame_inv in Ht' as (nl & nr & ->). by right.
    + destruct (IH _ Hnd H tid t1 Ht1) as (t0 & Ht0 & Hfr). simpl in Ht0.
      rewrite lookup_insert_ne in Ht0 by done. eauto.
Qed.

Lemma extend_loop_total (f : Z) (curr next : Inliers) (rel : list Z) (db : TracksDB) :
  aligned curr next ->
  map_Forall (fun _ t => track_wf t) (tracks db) ->
  (forall tid, tid ∈ rel -> is_Some (tracks db !! tid)) ->
  exists db1, py_for (extend_one f curr next) rel db = Ok db1.
Proof.
  intros Hal Hwf Hdom.
  destruct (py_for_total (extend_one f curr next)
    (fun s => map_Forall (fun _ t => track_wf t) (tracks s) /\
              forall tid, tid ∈ rel -> is_Some (tracks s !! tid)) rel db)
    as (db1 & Hdb1 & _); [| done | eauto].
  intros x s1 Hx [Hwf1 Hdom1].
  destruct (Hdom1 x Hx) as [t Ht].
  destruct (add_frame_total f curr next t) as [t' Ht']; [by eapply Hwf1 | done |].
  eexists. split.
  - unfold extend_one, get_track. rewrite Ht; simpl. rewrite Ht'; simpl. reflexivity.
  - simpl. split.
    + apply map_Forall_insert_2; [|done]. eapply add_frame_wf; [|exact Ht']. by eapply Hwf1.
    + intros tid Htid. destruct (decide (x = tid)) as [->|Hne].
      * rewrite lookup_insert_eq. eauto.
      * rewrite lookup_insert_ne by done. by apply Hdom1.
Qed.

(** ** [TracksDB.extend_tracks] *)

Lemma relevant_tracks_sublist (f : Z) (curr : Inliers) (db : TracksDB) (rel : list Z) :
  relevant_tracks f curr db = Ok rel -> rel `sublist_of` track_ids db.
Proof.
  unfold relevant_tracks. intros H.
  apply bind_Ok in H as (r & Hr & H).
  apply py_filter_sublist in Hr, H. by etrans.
Qed.

Lemma supported_total (f : Z) (curr : Inliers) (db : TracksDB) (tid : Z) (t : Track) :
  tracks db !! tid = Some t -> track_wf t -> f - 1 ∈ frame_ids t ->
  exists b, supported f curr db tid = Ok b.
Proof.
  intros Ht (_ & Hdom & Hpairs) Hin.
  destruct (Hdom _ Hin) as [e He].
  destruct (Hpairs _ _ He) as (l & r & ->).
  unfold supported.
  destruct (py_any_total (fun k => t ← get_track db tid; e ← get_kp t (f - 1);
              l ← entry_left e; Ok (np_contains l k)) (fst curr)) as [b Hb].
  { intros k _. unfold get_track, get_kp. rewrite Ht; simpl. rewrite He; simpl. eauto. }
  unfold supported_left. rewrite Hb; simpl.
  destruct b; [|eauto].
  apply py_any_total.
  intros k _. unfold get_track, get_kp. rewrite Ht; simpl. rewrite He; simpl. eauto.
Qed.

Lemma relevant_tracks_total (f : Z) (curr : Inliers) (db : TracksDB) :
  (forall tid, tid ∈ track_ids db -> is_Some (tracks db !! tid)) ->
  map_Forall (fun _ t => track_wf t) (tracks db) ->
  exists rel, relevant_tracks f curr db = Ok rel.
Proof.
  intros Hdom Hwf. unfold relevant_tracks.
  destruct (py_filter_total (seen_at f db) (track_ids db)) as [r Hr].
  { intros tid Htid. destruct (Hdom tid Htid) as [t Ht].
    unfold seen_at, get_track. rewrite Ht; simpl. eauto. }
  rewrite Hr; simpl.
  apply py_filter_total. intros tid Htid.
  apply (py_filter_elem _ _ _ tid Hr) in Htid as [Htid Hseen].
  destruct (Hdom tid Htid) as [t Ht].
  unfold seen_at, get_track in Hseen. rewrite Ht in Hseen; simpl in Hseen.
  injection Hseen as Hseen. apply bool_decide_eq_true in Hseen.
  eapply supported_total; [exact Ht | by eapply Hwf | done].
Qed.

Lemma extend_tracks_inv (f : Z) (curr next : Inliers) (db db' : TracksDB) :
  extend_tracks f curr next db = Ok db' ->
  exists rel db1,
    relevant_tracks f curr db = Ok rel /\
    py_for (extend_one f curr next) rel db = Ok db1 /\
    db' = {| tracks := <[db_track_id db := new_track (db_track_id db) f next]> (tracks db1);
             db_frame_ids := db_frame_ids db ++ [f];
             track_ids := track_ids db ++ [db_track_id db];
             db_track_id := db_track_id db + 1 |}.
Proof.
  unfold extend_tracks. intros H.
  apply bind_Ok in H as (rel & Hrel & H).
  apply bind_Ok in H as (db1 & Hdb1 & H).
  apply bind_Ok in H as (rkp & _ & H).
  simpl in H. injection H as <-.
  exists rel, db1. split; [done|]. split; [done|].
  destruct (extend_loop_fields _ _ _ _ _ _ Hdb1) as (Hf & Hi & Hc).
  unfold add_new_track, new_track; simpl. by rewrite Hf, Hi, Hc.
Qed.

Lemma collect_kp_total (rel : list Z) (db : TracksDB) :
  (forall tid, tid ∈ rel -> is_Some (tracks db !! tid)) ->
  exists m, py_for (collect_kp db) rel ∅ = Ok m.
Proof.
  intros Hdom.
  destruct (py_for_total (collect_kp db) (fun _ => True) rel ∅) as (m & Hm & _);
    [| done | eauto].
  intros tid acc Htid _. destruct (Hdom tid Htid) as [t Ht].
  unfold collect_kp, get_track. rewrite Ht; simpl. eauto.
Qed.

(** On a store built by [extend_tracks], a call whose arrays are aligned
    raises nothing. *)
Lemma extend_tracks_total (f : Z) (curr next : Inliers) (db : TracksDB) :
  db_wf db -> aligned curr next ->
  exists db', extend_tracks f curr next db = Ok db'.
Proof.
  intros (Hpos & Hids & Hdom & Hwf) Hal.
  destruct (relevant_tracks_total f curr db) as [rel Hrel]; [|done|].
  { intros tid Htid. by apply Hdom. }
  assert (forall tid, tid ∈ rel -> is_Some (tracks db !! tid)) as Hreldom.
  { intros tid Htid. apply Hdom.
    eapply elem_of_sublist; [done | by eapply relevant_tracks_sublist]. }
  destruct (extend_loop_total f curr next rel db) as [db1 Hdb1]; [done..|].
  destruct (collect_kp_total rel db1) as [m Hm].
  { intros tid Htid. destruct (Hreldom tid Htid) as [t Ht].
    destruct (extend_loop_grows _ _ _ _ _ _ Hdb1 tid) as [_ Hsome].
    destruct (Hsome t Ht) as (t' & Ht' & _). eauto. }
  unfold extend_tracks. rewrite Hrel; simpl. rewrite Hdb1; simpl.
  rewrite Hm; simpl. eauto.
Qed.

Lemma seqZ_snoc (n : Z) : 0 <= n -> seqZ 0 (n + 1) = seqZ 0 n ++ [n].
Proof.
  intros Hn. rewrite seqZ_app by lia. simpl.
  replace (0 + n) with n by lia. done.
Qed.

Lemma extend_tracks_wf (f : Z) (curr next : Inliers) (db db' : TracksDB) :
  db_wf db -> extend_tracks f curr next db = Ok db' -> db_wf db'.
Proof.
  intros (Hpos & Hids & Hdom & Hwf) H.
  apply extend_tracks_inv in H as (rel & db1 & Hrel & Hdb1 & ->).
  pose proof (extend_loop_grows _ _ _ _ _ _ Hdb1) as Hg.
  split; [|split; [|split]]; simpl.
  - lia.
  - rewrite Hids. by rewrite seqZ_snoc.
  - intros tid. rewrite elem_of_app, list_elem_of_singleton, <- Hdom.
    destruct (decide (db_track_id db = tid)) as [->|Hne].
    + rewrite lookup_insert_eq. split; eauto.
    + rewrite lookup_insert_ne by done.
      destruct (Hg tid) as [Hnone Hsome]. split.
      * intros [t1 Ht1]. left. destruct (tracks db !! tid) eqn:E; [eauto|].
        rewrite (Hnone eq_refl) in Ht1. discriminate.
      * intros [[t Ht]| ->]; [|done].
        destruct (Hsome t Ht) as (t' & Ht' & _). eauto.
  - apply map_Forall_insert_2; [|by eapply extend_loop_wf].
    unfold new_track, track_wf; simpl. split; [done|]. split.
    + intros g Hg'. apply list_elem_of_singleton in Hg' as ->.
      rewrite lookup_singleton_eq. eauto.
    + intros g e He. apply lookup_singleton_Some in He as [_ <-].
      by exists (fst next), (snd next).
Qed.

Lemma TracksDB_init_wf : db_wf TracksDB_init.
Proof.
  split; [done|]. split; [done|]. split.
  - intros tid. simpl. rewrite lookup_empty. split.
    + intros [? ?]; discriminate.
    + intros Hin; inversion Hin.
  - apply map_Forall_empty.
Qed.

Lemma ingest_wf (calls : list Call) (db db' : TracksDB) :
  db_wf db -> ingest calls db = Ok db' -> db_wf db'.
Proof.
  revert db; induction calls as [|[[f curr] next] calls IH]; intros db Hwf H; simpl in H.
  - by injection H as <-.
  - apply bind_Ok in H as (db1 & Hdb1 & H).
    eapply IH; [|exact H]. by eapply extend_tracks_wf.
Qed.

(** Ingestion of aligned arrays from a store built by [extend_tracks]
    raises nothing. *)
Lemma ingest_total (calls : list Call) (db : TracksDB) :
  db_wf db ->
  Forall (fun c => aligned (snd (fst c)) (snd c)) calls ->
  exists db', ingest calls db = Ok db'.
Proof.
  revert db; induction calls as [|[[f curr] next] calls IH]; intros db Hwf Hal; simpl.
  - eauto.
  - apply Forall_cons in Hal as [Hal1 Hal].
    destruct (extend_tracks_total f curr next db) as [db1 Hdb1]; [done..|].
    rewrite Hdb1; simpl. apply IH; [|done]. by eapply extend_tracks_wf.
Qed.

(** ** Frame lists stay sorted *)

Lemma extend_tracks_frames_below (b f : Z) (curr next : Inliers) (db db' : TracksDB) :
  db_wf db -> frames_below b db -> b <= f ->
  extend_tracks f curr next db = Ok db' ->
  frames_below (f + 1) db'.
Proof.
  intros (Hpos & Hids & Hdom & Hwf) Hbelow Hbf H.
  apply extend_tracks_inv in H as (rel & db1 & Hrel & Hdb1 & ->).
  assert (NoDup rel) as Hnd.
  { eapply sublist_NoDup; [|by eapply relevant_tracks_sublist].
    rewrite Hids. apply NoDup_seqZ. }
  unfold frames_below; simpl.
  apply map_Forall_insert_2.
  - simpl. split; [repeat constructor|]. repeat constructor. lia.
  - intros tid t1 Ht1.
    destruct (extend_loop_once _ _ _ _ _ _ Hnd Hdb1 tid t1 Ht1) as (t & Ht & Hfr).
    destruct (Hbelow tid t Ht) as [Hsorted Hall].
    assert (Forall (fun g => g < f + 1) (frame_ids t)) as Hall'.
    { eapply Forall_impl; [exact Hall|]. simpl; intros; lia. }
    destruct Hfr as [-> | ->]; [done|]. split.
    + apply StronglySorted_app_2; [|done|repeat constructor].
      intros x1 x2 Hx1 Hx2. apply list_elem_of_singleton in Hx2 as ->.
      rewrite Forall_forall in Hall. specialize (Hall x1 Hx1). lia.
    + apply Forall_app. split; [done|]. repeat constructor. lia.
Qed.

Lemma ingest_frames_below (b : Z) (calls : list Call) (db db' : TracksDB) :
  db_wf db -> frames_below b db ->
  StronglySorted Z.lt (map call_frame calls) ->
  Forall (fun f => b <= f) (map call_frame calls) ->
  ingest calls db = Ok db' ->
  exists b', frames_below b' db'.
Proof.
  revert b db; induction calls as [|[[f curr] next] calls IH];
    intros b db Hwf Hbelow Hsorted Hge H; simpl in H.
  - injection H as <-. eauto.
  - apply bind_Ok in H as (db1 & Hdb1 & H).
    simpl in Hsorted, Hge. change (call_frame (f, curr, next)) with f in *.
    apply StronglySorted_cons in Hsorted as [Hlt Hsorted].
    apply Forall_cons in Hge as [Hbf _].
    apply (IH (f + 1) db1); [by eapply extend_tracks_wf | | done | | done].
    + by eapply extend_tracks_frames_below.
    + eapply Forall_impl; [exact Hlt|]. simpl; intros; lia.
Qed.

Lemma StronglySorted_lt_NoDup (l : list Z) : StronglySorted Z.lt l -> NoDup l.
Proof.
  induction 1 as [|x l _ IH Hall]; constructor; [|done].
  intros Hx. rewrite Forall_forall in Hall. specialize (Hall x Hx). lia.
Qed.

Lemma seqZ_sorted (m n : Z) : StronglySorted Z.lt (seqZ m n).
Proof.
  remember (Z.to_nat n) as k eqn:Hk. revert m n Hk.
  induction k as [|k IH]; intros m n Hk.
  - rewrite seqZ_nil by lia. constructor.
  - rewrite seqZ_cons by lia. constructor; [apply IH; lia|].
    apply Forall_forall. intros x Hx. apply elem_of_seqZ in Hx. lia.
Qed.

(** The driver calls [extend_tracks] with strictly increasing frame ids,
    whatever pairs the front end rejects. *)
Lemma run_sequence_calls_increasing (start_frame end_frame : Z) :
  StronglySorted Z.lt (map call_frame (run_sequence_calls start_frame end_frame)).
Proof.
  unfold run_sequence_calls.
  generalize (seqZ_sorted start_frame (end_frame - start_frame)).
  generalize (seqZ start_frame (end_frame - start_frame)). intros l.
  induction 1 as [|x l _ IH Hall]; simpl; [constructor|].
  unfold call_of_frame at 1.
  destruct (track_movement_successive x) as [[curr next]|]; [|exact IH].
  simpl. constructor; [exact IH|].
  apply Forall_forall. intros y Hy.
  apply list_elem_of_fmap in Hy as (c & -> & Hc).
  apply list_elem_of_omap in Hc as (z & Hz & Hcz).
  rewrite Forall_forall in Hall. specialize (Hall z Hz).
  unfold call_of_frame in Hcz.
  destruct (track_movement_successive z) as [[c1 n1]|]; [|discriminate].
  injection Hcz as <-. exact Hall.
Qed.

(** C4. Ingest a run of [extend_tracks] calls whose frame ids strictly
    increase, starting from the empty store. After any number of these
    calls, the frame list of every track of the store is strictly
    increasing, and so holds no frame id twice. *)
Theorem frame_ids_strictly_increasing
    (calls : list Call) (n : nat) (db : TracksDB) (tid : Z) (t : Track) :
  StronglySorted Z.lt (map call_frame calls) ->
  ingest (take n calls) TracksDB_init = Ok db ->
  tracks db !! tid = Some t ->
  StronglySorted Z.lt (frame_ids t) /\ NoDup (frame_ids t).
Proof.
  intros Hsorted Hrun Ht.
  assert (StronglySorted Z.lt (map call_frame (take n calls))) as Hpre.
  { rewrite <- (take_drop n calls), map_app in Hsorted.
    by apply StronglySorted_app_1_l in Hsorted. }
  set (b := match take n calls with [] => 0 | c :: _ => call_frame c end).
  destruct (ingest_frames_below b (take n calls) TracksDB_init db) as [b' Hb'];
    [apply TracksDB_init_wf | apply map_Forall_empty | done | | done |].
  - subst b. destruct (take n calls) as [|c cs]; [constructor|].
    simpl in *. apply StronglySorted_cons in Hpre as [Hlt _].
    constructor; [lia|]. eapply Forall_impl; [exact Hlt|]. simpl; intros; lia.
  - destruct (Hb' tid t Ht) as [Hs _]. split; [done|].
    by apply StronglySorted_lt_NoDup.
Qed.

(** ** Stored observations are kept *)

Lemma db_wf_fresh_id (db : TracksDB) : db_wf db -> tracks db !! db_track_id db = None.
Proof.
  intros (Hpos & Hids & Hdom & _).
  destruct (tracks db !! db_track_id db) eqn:E; [|done].
  assert (db_track_id db ∈ track_ids db) as Hin by (apply Hdom; eauto).
  rewrite Hids in Hin. apply elem_of_seqZ in Hin. lia.
Qed.

(** C5. On a store that ingestion has built, a call of [extend_tracks] for
    frame [f] keeps every track, keeps its frame list as a prefix of the
    new one, and leaves its entry at every frame id other than [f] as it
    was; in particular at every frame id below [f]. *)
Theorem extend_tracks_append_only
    (calls : list Call) (f : Z) (curr next : Inliers) (db db' : TracksDB)
    (tid : Z) (t : Track) :
  ingest calls TracksDB_init = Ok db ->
  extend_tracks f curr next db = Ok db' ->
  tracks db !! tid = Some t ->
  exists t', tracks db' !! tid = Some t' /\
    frame_ids t `prefix_of` frame_ids t' /\
    (forall g, g <> f -> kp t' !! g = kp t !! g) /\
    (forall g, g < f -> kp t' !! g = kp t !! g).
Proof.
  intros Hrun H Ht.
  pose proof (ingest_wf _ _ _ TracksDB_init_wf Hrun) as Hwf.
  pose proof (db_wf_fresh_id _ Hwf) as Hfresh.
  apply extend_tracks_inv in H as (rel & db1 & Hrel & Hdb1 & ->).
  destruct (extend_loop_grows _ _ _ _ _ _ Hdb1 tid) as [_ Hsome].
  destruct (Hsome t Ht) as (t' & Ht' & Hid & Hpre & Hkp).
  exists t'. simpl. split; [|split; [done|split; [done|]]].
  - rewrite lookup_insert_ne; [done|]. intros Heq. congruence.
  - intros g Hg. apply Hkp. lia.
Qed.

(** ** One new track per call *)

Lemma ingest_counter (calls : list Call) (db db' : TracksDB) :
  ingest calls db = Ok db' ->
  db_track_id db' = db_track_id db + Z.of_nat (length calls).
Proof.
  revert db; induction calls as [|[[f curr] next] calls IH]; intros db H; simpl in H.
  - injection H as <-. simpl; lia.
  - apply bind_Ok in H as (db1 & Hdb1 & H).
    rewrite (IH _ H).
    apply extend_tracks_inv in Hdb1 as (rel & db2 & _ & _ & ->). simpl length. simpl; lia.
Qed.

(** C9. On a store built by a run of calls from the empty store, the
    counter is the number of calls so far and the ids are [0, 1, ...] in
    order. A further call whose arrays are aligned (empty arrays are)
    raises nothing, and whenever a call returns: the counter has grown by
    one; the id list has grown by the old counter value; that id was not
    in use; the track stored under it has this id, the single frame
    [frame_id] and the whole pair of next-frame arrays; no other key of
    [tracks] is added or removed; and the ids stay distinct. *)
Theorem extend_tracks_creates_one_track
    (calls : list Call) (f : Z) (curr next : Inliers) (db : TracksDB) :
  ingest calls TracksDB_init = Ok db ->
  db_track_id db = Z.of_nat (length calls) /\
  track_ids db = seqZ 0 (Z.of_nat (length calls)) /\
  (aligned curr next -> exists db', extend_tracks f curr next db = Ok db') /\
  (forall db', extend_tracks f curr next db = Ok db' ->
     db_track_id db' = db_track_id db + 1 /\
     track_ids db' = track_ids db ++ [db_track_id db] /\
     tracks db !! db_track_id db = None /\
     tracks db' !! db_track_id db = Some (new_track (db_track_id db) f next) /\
     dom (tracks db') = dom (tracks db) ∪ {[db_track_id db]} /\
     NoDup (track_ids db')).
Proof.
  intros Hrun.
  pose proof (ingest_wf _ _ _ TracksDB_init_wf Hrun) as Hwf.
  pose proof (ingest_counter _ _ _ Hrun) as Hcnt. simpl in Hcnt.
  split; [done|]. split.
  { destruct Hwf as (_ & Hids & _). by rewrite Hids, Hcnt. }
  split; [intros Hal; by apply extend_tracks_total|].
  intros db' H.
  pose proof (extend_tracks_wf _ _ _ _ _ Hwf H) as (_ & Hids' & _).
  pose proof (db_wf_fresh_id _ Hwf) as Hfresh.
  assert (NoDup (track_ids db')) as Hnd by (rewrite Hids'; apply NoDup_seqZ).
  apply extend_tracks_inv in H as (rel & db1 & Hrel & Hdb1 & ->). simpl in *.
  repeat split; try done.
  - by rewrite lookup_insert_eq.
  - rewrite dom_insert_L.
    assert (dom (tracks db1) = dom (tracks db)) as ->; [|apply (comm_L (∪))].
    apply set_eq. intros tid. rewrite !elem_of_dom.
    destruct (extend_loop_grows _ _ _ _ _ _ Hdb1 tid) as [Hnone Hsome]. split.
    + intros [t1 Ht1]. destruct (tracks db !! tid) eqn:E; [eauto|].
      rewrite (Hnone eq_refl) in Ht1. discriminate.
    + intros [t Ht]. destruct (Hsome t Ht) as (t' & Ht' & _). eauto.
Qed.

(** ** [TracksDB.get_track_ids] *)

Lemma TracksDB_init_consistent : db_consistent TracksDB_init.
Proof.
  intros tid. simpl. rewrite lookup_empty. split.
  - intros Hin; inversion Hin.
  - intros [? ?]; discriminate.
Qed.

Lemma add_new_track_consistent (t : Track) (db : TracksDB) :
  db_consistent db -> db_consistent (add_new_track t db).
Proof.
  unfold db_consistent. intros Hc tid. unfold add_new_track; simpl.
  rewrite elem_of_app, list_elem_of_singleton, lookup_insert_is_Some, Hc.
  destruct (decide (track_id t = tid)) as [Heq|Hne].
  - split; intros _; [by left | by right].
  - split; [intros [?|?]; [by right | congruence] | intros [?|[_ ?]]; [congruence | by left]].
Qed.

Lemma add_track_consistent (t : Track) (db : TracksDB) :
  db_consistent db -> db_consistent (add_track t db).
Proof.
  unfold db_consistent. intros Hc tid. unfold add_track; simpl.
  rewrite elem_of_app, list_elem_of_singleton, lookup_insert_is_Some, Hc.
  destruct (decide (db_track_id db = tid)) as [Heq|Hne].
  - split; intros _; [by left | by right].
  - split; [intros [?|?]; [by right | congruence] | intros [?|[_ ?]]; [congruence | by left]].
Qed.

Lemma db_wf_consistent (db : TracksDB) : db_wf db -> db_consistent db.
Proof. intros (_ & _ & Hdom & _) tid. by rewrite Hdom. Qed.

(** C6. On a store whose id list names the keys of [tracks] (every store
    the class builds), [get_track_ids] raises nothing and returns the ids of
    the tracks whose frame list holds the frame id. For the store that
    holds track [A] over frames [0, 1, 2] and track [B] over frames [1, 2],
    it returns [A] at frame 0 and [A, B] at frames 1 and 2. *)
Theorem get_track_ids_spec
    (db : TracksDB) (f : Z) (A B : Z) (kpA kpB : gmap Z KpEntry) :
  db_consistent db -> A <> B ->
  (exists l, get_track_ids f db = Ok l /\
     forall tid, tid ∈ l <-> exists t, tracks db !! tid = Some t /\ f ∈ frame_ids t) /\
  (let store := add_new_track (mkTrack B [1; 2] kpB)
                  (add_new_track (mkTrack A [0; 1; 2] kpA) TracksDB_init) in
   get_track_ids 0 store = Ok [A] /\
   get_track_ids 1 store = Ok [A; B] /\
   get_track_ids 2 store = Ok [A; B]).
Proof.
  intros Hc HAB. split.
  - destruct (py_filter_total
      (fun tid => t ← get_track db tid; Ok (bool_decide (f ∈ frame_ids t)))
      (track_ids db)) as [l Hl].
    { intros tid Htid. apply Hc in Htid as [t Ht].
      unfold get_track. rewrite Ht; simpl. eauto. }
    exists l. split; [exact Hl|]. intros tid.
    rewrite (py_filter_elem _ _ _ tid Hl). unfold get_track. split.
    + intros [Htid Hp]. apply Hc in Htid as [t Ht]. rewrite Ht in Hp; simpl in Hp.
      injection Hp as Hp. apply bool_decide_eq_true in Hp. eauto.
    + intros (t & Ht & Hin). split; [apply Hc; eauto|].
      rewrite Ht; simpl. by rewrite bool_decide_eq_true_2.
  - unfold get_track_ids, get_track, add_new_track; simpl.
    rewrite lookup_insert_eq, lookup_insert_ne, lookup_insert_eq by done.
    simpl. done.
Qed.

(** ** [TracksDB.get_feature_locations] *)

Lemma py_index_total (l : list Z) (x : Z) :
  x ∈ l -> exists i, py_index l x = Ok i.
Proof.
  induction l as [|y l IH]; intros Hx; [inversion Hx|]. simpl.
  destruct (bool_decide (y = x)) eqn:E; [eauto|].
  apply bool_decide_eq_false in E.
  apply elem_of_cons in Hx as [->|Hx]; [done|].
  destruct (IH Hx) as [i Hi]. rewrite Hi; simpl. eauto.
Qed.

(** C1. On a store that ingestion has built, [get_feature_locations]
    returns [None] for a frame id that is not in the track's frame list.
    For a frame id that is in the list it raises: the entry is looked up
    under the position of the frame id in the list, not under the frame
    id ([KeyError] when that position is no key), and the entry found is
    the pair of arrays, which has no [pt] ([AttributeError]). *)
Theorem get_feature_locations_raises
    (calls : list Call) (db : TracksDB) (tid : Z) (t : Track) (f : Z) :
  ingest calls TracksDB_init = Ok db ->
  tracks db !! tid = Some t ->
  (f ∉ frame_ids t -> get_feature_locations f tid db = Ok None) /\
  (f ∈ frame_ids t ->
     get_feature_locations f tid db = Raise KeyError \/
     get_feature_locations f tid db = Raise AttributeError).
Proof.
  intros Hrun Ht.
  pose proof (ingest_wf _ _ _ TracksDB_init_wf Hrun) as (_ & _ & _ & Hwf).
  destruct (Hwf tid t Ht) as (_ & _ & Hpairs).
  unfold get_feature_locations, get_track. rewrite Ht; simpl. split; intros Hin.
  - by rewrite bool_decide_eq_false_2.
  - rewrite bool_decide_eq_true_2 by done.
    destruct (py_index_total _ _ Hin) as [i Hi]. rewrite Hi; simpl.
    unfold get_kp. destruct (kp t !! Z.of_nat i) as [e|] eqn:He; simpl; [|by left].
    destruct (Hpairs _ _ He) as (l & r & ->). simpl. by right.
Qed.

(** ** [relative_to_absolute_poses] *)

Lemma zip3_length {A B C} (a : list A) (b : list B) (c : list C) :
  length (zip3 a b c) = Nat.min (length a) (Nat.min (length b) (length c)).
Proof.
  revert b c; induction a as [|x a IH]; intros [|y b] [|z c]; simpl; try done.
  by rewrite IH.
Qed.

Lemma zip3_lookup {A B C} (a : list A) (b : list B) (c : list C) (i : nat) x y z :
  zip3 a b c !! i = Some (x, y, z) ->
  a !! i = Some x /\ b !! i = Some y /\ c !! i = Some z.
Proof.
  revert b c i; induction a as [|x' a IH]; intros [|y' b] [|z' c] i; simpl; try done.
  destruct i as [|i]; simpl.
  - intros H. injection H as -> -> ->. done.
  - apply IH.
Qed.

Lemma chain_fold (zs : list (Pose3 * list Point3 * Pose3)) (s : Chain) (n : nat) :
  length (abs_cameras s) = S n ->
  abs_cameras s !! n = Some (base_camera s) ->
  let s' := fold_left chain_step zs s in
  length (abs_cameras s') = (S n + length zs)%nat /\
  abs_cameras s `prefix_of` abs_cameras s' /\
  forall i z, zs !! i = Some z ->
    exists prev, abs_cameras s' !! (n + i)%nat = Some prev /\
                 abs_cameras s' !! S (n + i) = Some (compose prev (fst (fst z))).
Proof.
  revert s n; induction zs as [|z0 zs IH]; intros s n Hlen Hlast; simpl.
  - split; [lia|]. split; [done|]. intros i z Hz. done.
  - set (s1 := chain_step s z0).
    assert (abs_cameras s1 = abs_cameras s ++ [compose (base_camera s) (fst (fst z0))]
            /\ base_camera s1 = compose (base_camera s) (fst (fst z0))) as [Habs Hbase].
    { subst s1. unfold chain_step. by destruct z0 as [[? ?] ?]. }
    destruct (IH s1 (S n)) as (Hlen' & Hpre & Hstep).
    { rewrite Habs, length_app, Hlen. simpl; lia. }
    { rewrite Habs, Hbase, lookup_app_r by lia.
      by replace (S n - length (abs_cameras s))%nat with 0%nat by lia. }
    assert (abs_cameras s `prefix_of` abs_cameras s1) as Hpre1.
    { rewrite Habs. by apply prefix_app_r. }
    split; [simpl; lia|]. split; [by etrans|].
    intros i z Hz. destruct i as [|i]; simpl in Hz.
    + injection Hz as ->. exists (base_camera s).
      replace (n + 0)%nat with n by lia. split.
      * eapply prefix_lookup_Some; [exact Hlast | by etrans].
      * eapply prefix_lookup_Some; [|exact Hpre].
        rewrite Habs, lookup_app_r by lia.
        by replace (S n - length (abs_cameras s))%nat with 0%nat by lia.
    + destruct (Hstep i z Hz) as (prev & Hprev & Hnext).
      exists prev. by replace (n + S i)%nat with (S n + i)%nat by lia.
Qed.

(** C7. With at least one relative camera and one initial camera (else
    [IndexError]), [relative_to_absolute_poses] returns. The first absolute
    camera is the first camera given; there is one absolute camera more
    than there are windows zipped; and every later absolute camera is the
    one before it composed with the relative camera at its own position.
    With one point set per window and one initial camera per camera, there
    are as many absolute cameras as cameras. *)
Theorem relative_to_absolute_poses_chain
    (cameras : list Pose3) (points : list (list Point3)) (init_cams : list Pose3) :
  cameras <> [] -> init_cams <> [] ->
  exists abs_c abs_p abs_i,
    relative_to_absolute_poses cameras points init_cams = Ok (abs_c, abs_p, abs_i) /\
    abs_c !! 0%nat = cameras !! 0%nat /\
    length abs_c = S (Nat.min (length cameras - 1)
                        (Nat.min (length points) (length init_cams - 1))) /\
    (S (length points) = length cameras -> length init_cams = length cameras ->
     length abs_c = length cameras) /\
    (forall i, (S i < length abs_c)%nat ->
       exists prev rel, abs_c !! i = Some prev /\ cameras !! S i = Some rel /\
                        abs_c !! S i = Some (compose prev rel)).
Proof.
  intros Hc Hi.
  destruct cameras as [|cam0 cams]; [done|].
  destruct init_cams as [|ini0 inis]; [done|].
  unfold relative_to_absolute_poses; simpl.
  set (s0 := {| base_camera := cam0; base_init := ini0; abs_points := [];
                abs_cameras := [cam0]; abs_init := [ini0] |}).
  set (zs := zip3 cams points inis).
  destruct (chain_fold zs s0 0) as (Hlen & Hpre & Hstep); [done..|].
  eexists _, _, _. split; [reflexivity|].
  assert (length zs = Nat.min (length cams) (Nat.min (length points) (length inis)))
    as Hzs by apply zip3_length.
  split; [|split; [|split]].
  - eapply prefix_lookup_Some; [|exact Hpre]. done.
  - rewrite Hlen, Hzs. by rewrite !Nat.sub_0_r.
  - intros Hp Hn. rewrite Hlen, Hzs. simpl in *. lia.
  - intros i Hlt. rewrite Hlen in Hlt.
    destruct (lookup_lt_is_Some_2 zs i) as [[[x y] z] Hz]; [lia|].
    destruct (Hstep i _ Hz) as (prev & Hprev & Hnext).
    apply zip3_lookup in Hz as (Hx & _ & _).
    exists prev, x. simpl. done.
Qed.

(** ** [fix_ext_mat] *)

Lemma length_3_inv {A} (l : list A) :
  length l = 3%nat -> exists a b c, l = [a; b; c].
Proof. destruct l as [|a [|b [|c [|]]]]; try discriminate. eauto. Qed.


(** *** Exact arithmetic

    What [fix_ext_mat] computes when sums and products are exact, that is
    when the entries form a commutative ring. The floating-point numbers
    of the program do not: these lemmas say what the formula does, and
    the run on binary64 at the end of the file shows where rounding
    departs from it. *)
Section ExactArithmetic.

Hypothesis Fring : ring_theory f0 f1 fadd fmul fsub fopp eq.
Add Ring Fring_inst : Fring.




End ExactArithmetic.


(** ** Serialization *)

(** C8. When the file can be opened for writing and [pickle] can write
    the store, [serialize] returns, with the file holding the pickled
    store and every other file as it was, and [deserialize] of that file
    returns a store equal to the one written: the same track ids, and the
    same frame list and the same entries for every track. [pickle] is
    taken as documented: [pickle.load] reconstructs what [pickle.dump]
    has written. *)
Theorem serialize_deserialize
    (file_name : string) (db : TracksDB) (fs : FileSystem) (b : Blob) :
  open_wb file_name = true -> pickle_dumps db = Ok b ->
  exists fs' db',
    serialize file_name db fs = Ok fs' /\
    fs' = <[file_name := b]> fs /\
    deserialize file_name fs' = Ok db' /\
    track_ids db' = track_ids db /\
    (forall tid, is_Some (tracks db' !! tid) <-> is_Some (tracks db !! tid)) /\
    (forall tid, frame_ids <$> tracks db' !! tid = frame_ids <$> tracks db !! tid) /\
    (forall tid, kp <$> tracks db' !! tid = kp <$> tracks db !! tid) /\
    db' = db.
Proof.
  intros Hopen Hdump. exists (<[file_name := b]> fs), db.
  split; [|split; [done|split]].
  - unfold serialize. rewrite Hopen, Hdump. done.
  - unfold deserialize, FileSystem. rewrite lookup_insert_eq. simpl.
    by apply pickle_loads_dumps.
  - by repeat split.
Qed.

(** ** The covariance computed by [q6_1] *)

(** C3. When [q6_1] computes [rel_cov], it is the inverse of the joint
    marginal information of the two pose keys [c0] and [ck]. That joint
    matrix has twelve rows and columns, six per pose, and so has its
    inverse: [rel_cov] is 12×12, the joint covariance of both poses, not
    a 6×6 matrix. *)
Theorem q6_1_rel_cov_shape (marginals : Marginals) (rel_cov : Matrix) :
  q6_1_rel_cov marginals = Ok rel_cov ->
  (exists info,
     jointMarginalInformation marginals [symbol "c"%char 0; symbol "c"%char 7] = Ok info /\
     shape info = (12, 12)%nat /\
     linalg_inv info = Ok rel_cov) /\
  shape rel_cov = (12, 12)%nat /\
  shape rel_cov <> (6, 6)%nat.
Proof.
  unfold q6_1_rel_cov. intros H.
  apply bind_Ok in H as (info & Hinfo & Hinv).
  assert (shape info = (12, 12)%nat) as Hshape.
  { apply (jointMarginalInformation_shape marginals [0; 7]); [|exact Hinfo].
    repeat constructor; [|inversion 1].
    intros Hin. apply list_elem_of_singleton in Hin. discriminate. }
  apply linalg_inv_shape in Hinv as Hsame. rewrite Hshape in Hsame.
  split; [by exists info|]. split; [exact Hsame|]. rewrite Hsame. discriminate.
Qed.

(** * Further properties *)

(** ** Which tracks a call extends *)

Lemma py_any_true {A} (p : A -> result bool) (l : list A) :
  py_any p l = Ok true -> exists x, x ∈ l /\ p x = Ok true.
Proof.
  induction l as [|x l IH]; simpl; [discriminate|]. intros H.
  apply bind_Ok in H as (b & Hb & H). destruct b.
  - exists x. split; [left | done].
  - destruct (IH H) as (y & Hy & Hpy). exists y. split; [by right | done].
Qed.

Lemma py_any_existsb {A} (p : A -> result bool) (q : A -> bool) (l : list A) :
  (forall x, x ∈ l -> p x = Ok (q x)) -> py_any p l = Ok (existsb q l).
Proof.
  induction l as [|x l IH]; intros Hp; simpl; [done|].
  rewrite (Hp x) by left. simpl. destruct (q x); [done|].
  apply IH. intros y Hy. apply Hp. by right.
Qed.

Lemma existsb_elem {A} (q : A -> bool) (l : list A) :
  existsb q l = true <-> exists x, x ∈ l /\ q x = true.
Proof.
  rewrite existsb_exists. split; intros (x & Hx & Hq); exists x;
    (split; [by apply list_elem_of_In | done]).
Qed.

Lemma supported_true (f : Z) (curr : Inliers) (db : TracksDB) (tid : Z) (t : Track) :
  tracks db !! tid = Some t ->
  supported f curr db tid = Ok true <->
  exists l r, kp t !! (f - 1) = Some (KpPair l r) /\
    (exists k, k ∈ fst curr /\ np_contains l k = true) /\
    (exists k, k ∈ snd curr /\ np_contains r k = true).
Proof.
  intros Ht. split.
  - unfold supported, supported_left, supported_right. intros H. apply bind_Ok in H as (b & Hleft & Hright).
    destruct b; [|discriminate].
    apply py_any_true in Hleft as (k1 & Hk1 & H1).
    apply py_any_true in Hright as (k2 & Hk2 & H2).
    unfold get_track, get_kp in H1, H2. rewrite Ht in H1, H2. simpl in H1, H2.
    destruct (kp t !! (f - 1)) as [[l r|k]|]; simpl in H1, H2; try discriminate.
    exists l, r. split; [done|]. split; [exists k1 | exists k2]; split; congruence.
  - intros (l & r & He & Hl & Hr).
    assert (supported_left f curr db tid = Ok (existsb (np_contains l) (fst curr))) as HL.
    { unfold supported_left. apply py_any_existsb. intros k _.
      unfold get_track, get_kp. rewrite Ht; simpl. rewrite He. reflexivity. }
    assert (supported_right f curr db tid = Ok (existsb (np_contains r) (snd curr))) as HR.
    { unfold supported_right. apply py_any_existsb. intros k _.
      unfold get_track, get_kp. rewrite Ht; simpl. rewrite He. reflexivity. }
    apply existsb_elem in Hl, Hr.
    unfold supported. rewrite HL, Hl. simpl. by rewrite HR, Hr.
Qed.

Lemma relevant_tracks_elem (f : Z) (curr : Inliers) (db : TracksDB)
    (rel : list Z) (tid : Z) (t : Track) :
  relevant_tracks f curr db = Ok rel ->
  tracks db !! tid = Some t ->
  tid ∈ rel <-> tid ∈ track_ids db /\ continues f curr t.
Proof.
  unfold relevant_tracks. intros H Ht.
  apply bind_Ok in H as (r & Hr & H).
  rewrite (py_filter_elem _ _ _ tid H), (py_filter_elem _ _ _ tid Hr).
  rewrite (supported_true _ _ _ _ _ Ht).
  unfold seen_at, get_track, continues. rewrite Ht. simpl. split.
  - intros [[Hin Hseen] Hsup]. injection Hseen as Hseen.
    apply bool_decide_eq_true in Hseen. done.
  - intros [Hin [Hseen Hsup]]. by rewrite bool_decide_eq_true_2.
Qed.

(** With no id listed twice, the loop extends the listed tracks once and
    leaves the others. *)
Lemma extend_loop_exact (f : Z) (curr next : Inliers) (rel : list Z) (db db1 : TracksDB) :
  NoDup rel ->
  py_for (extend_one f curr next) rel db = Ok db1 ->
  forall tid t, tracks db !! tid = Some t ->
    (tid ∈ rel -> exists t', add_frame f curr next t = Ok t' /\
                             tracks db1 !! tid = Some t') /\
    (tid ∉ rel -> tracks db1 !! tid = Some t).
Proof.
  intros Hnd H tid t Ht. split.
  - revert db Hnd H Ht. induction rel as [|x rel IH]; intros db Hnd H Ht Hin; simpl in H.
    + inversion Hin.
    + apply NoDup_cons in Hnd as [Hx Hnd].
      apply bind_Ok in H as (db' & Hone & H).
      pose proof (extend_loop_untouched _ _ _ _ _ _ x Hx H) as Hsame.
      apply extend_one_inv in Hone as (t0 & t0' & Ht0 & Ht0' & ->). simpl in *.
      destruct (decide (tid = x)) as [->|Hne].
      * rewrite Ht in Ht0. injection Ht0 as <-.
        exists t0'. split; [done|]. by rewrite Hsame, lookup_insert_eq.
      * apply elem_of_cons in Hin as [?|Hin]; [done|].
        apply (IH _ Hnd H); [|done]. simpl. by rewrite lookup_insert_ne.
  - intros Hnot. by rewrite (extend_loop_untouched _ _ _ _ _ _ tid Hnot H).
Qed.

Lemma extend_tracks_grows (f : Z) (curr next : Inliers) (db db' : TracksDB)
    (tid : Z) (t : Track) :
  db_wf db -> extend_tracks f curr next db = Ok db' ->
  tracks db !! tid = Some t ->
  exists t', tracks db' !! tid = Some t' /\ grows f t t'.
Proof.
  intros Hwf H Ht.
  pose proof (db_wf_fresh_id _ Hwf) as Hfresh.
  apply extend_tracks_inv in H as (rel & db1 & Hrel & Hdb1 & ->).
  destruct (extend_loop_grows _ _ _ _ _ _ Hdb1 tid) as [_ Hsome].
  destruct (Hsome t Ht) as (t' & Ht' & Hg).
  exists t'. simpl. split; [|done].
  rewrite lookup_insert_ne; [done|]. intros Heq. congruence.
Qed.

(** X1. On a store that ingestion has built, a call for frame [f] extends
    a track exactly when the track has frame [f - 1] and its entry there
    shares a left key point with the current left array and a right key
    point with the current right array (the two are tested apart). Such a
    track gets the one new frame [f]; every other track is left as it
    was. *)
Theorem extend_tracks_extends_iff
    (calls : list Call) (f : Z) (curr next : Inliers) (db db' : TracksDB)
    (tid : Z) (t : Track) :
  ingest calls TracksDB_init = Ok db ->
  extend_tracks f curr next db = Ok db' ->
  tracks db !! tid = Some t ->
  exists t', tracks db' !! tid = Some t' /\
    (continues f curr t -> frame_ids t' = frame_ids t ++ [f]) /\
    (~ continues f curr t -> t' = t).
Proof.
  intros Hrun H Ht.
  pose proof (ingest_wf _ _ _ TracksDB_init_wf Hrun) as Hwf.
  pose proof (db_wf_fresh_id _ Hwf) as Hfresh.
  destruct Hwf as (_ & Hids & Hdom & _).
  apply extend_tracks_inv in H as (rel & db1 & Hrel & Hdb1 & ->).
  assert (NoDup rel) as Hnd.
  { eapply sublist_NoDup; [|by eapply relevant_tracks_sublist].
    rewrite Hids. apply NoDup_seqZ. }
  pose proof (relevant_tracks_elem _ _ _ _ tid t Hrel Ht) as Hrel_iff.
  destruct (extend_loop_exact _ _ _ _ _ _ Hnd Hdb1 tid t Ht) as [Hin Hnot].
  assert (tid <> db_track_id db) as Hne by congruence.
  destruct (decide (tid ∈ rel)) as [Hyes|Hno].
  - destruct (Hin Hyes) as (t' & Hadd & Ht').
    exists t'. simpl. rewrite lookup_insert_ne by done. split; [done|]. split.
    + intros _. apply add_frame_inv in Hadd as (nl & nr & ->). done.
    + intros Hc. apply Hrel_iff in Hyes as [_ ?]. done.
  - exists t. simpl. rewrite lookup_insert_ne by done. split; [by apply Hnot|].
    split; [|done]. intros Hc. exfalso. apply Hno, Hrel_iff. split; [|done].
    apply Hdom. eauto.
Qed.

(** ** Frame lists have no gaps *)

Lemma consecutive_snoc (l : list Z) (b f : Z) :
  consecutive l -> Forall (fun g => g < b) l -> b <= f -> f - 1 ∈ l ->
  consecutive (l ++ [f]).
Proof.
  intros [c Hl] Hall Hbf Hin. exists c.
  set (n := Z.of_nat (length l)) in *.
  assert (c <= f - 1 < c + n) as Hrange.
  { rewrite Hl in Hin. apply elem_of_seqZ in Hin. lia. }
  assert (c + n - 1 ∈ l) as Hlast.
  { rewrite Hl. apply elem_of_seqZ. lia. }
  rewrite Forall_forall in Hall. specialize (Hall _ Hlast).
  assert (f = c + n) as -> by lia.
  rewrite length_app. simpl length.
  replace (Z.of_nat (length l + 1)) with (n + 1) by (subst n; lia).
  rewrite seqZ_app by lia. by rewrite <- Hl.
Qed.

Lemma extend_tracks_consecutive (b f : Z) (curr next : Inliers) (db db' : TracksDB) :
  db_wf db -> frames_consecutive_below b db -> b <= f ->
  extend_tracks f curr next db = Ok db' ->
  frames_consecutive_below (f + 1) db'.
Proof.
  intros (Hpos & Hids & Hdom & Hwf) Hinv Hbf H.
  apply extend_tracks_inv in H as (rel & db1 & Hrel & Hdb1 & ->).
  assert (NoDup rel) as Hnd.
  { eapply sublist_NoDup; [|by eapply relevant_tracks_sublist].
    rewrite Hids. apply NoDup_seqZ. }
  unfold frames_consecutive_below; simpl.
  apply map_Forall_insert_2.
  - simpl. split; [by exists f|]. repeat constructor. lia.
  - intros tid t1 Ht1.
    destruct (extend_loop_grows _ _ _ _ _ _ Hdb1 tid) as [Hnone _].
    destruct (tracks db !! tid) as [t|] eqn:Ht;
      [|rewrite (Hnone eq_refl) in Ht1; discriminate].
    destruct (Hinv tid t Ht) as [Hcons Hall].
    destruct (extend_loop_exact _ _ _ _ _ _ Hnd Hdb1 tid t Ht) as [Hin Hnot].
    assert (Forall (fun g => g < f + 1) (frame_ids t)) as Hall'.
    { eapply Forall_impl; [exact Hall|]. simpl; intros; lia. }
    destruct (decide (tid ∈ rel)) as [Hyes|Hno].
    + destruct (Hin Hyes) as (t' & Hadd & Ht').
      rewrite Ht' in Ht1. injection Ht1 as <-.
      apply (relevant_tracks_elem _ _ _ _ tid t Hrel Ht) in Hyes as [_ [Hprev _]].
      apply add_frame_inv in Hadd as (nl & nr & ->). simpl. split.
      * by apply (consecutive_snoc _ b).
      * apply Forall_app. split; [done|]. repeat constructor. lia.
    + rewrite (Hnot Hno) in Ht1. injection Ht1 as <-. done.
Qed.

Lemma ingest_consecutive (b : Z) (calls : list Call) (db db' : TracksDB) :
  db_wf db -> frames_consecutive_below b db ->
  StronglySorted Z.lt (map call_frame calls) ->
  Forall (fun f => b <= f) (map call_frame calls) ->
  ingest calls db = Ok db' ->
  exists b', frames_consecutive_below b' db'.
Proof.
  revert b db; induction calls as [|[[f curr] next] calls IH];
    intros b db Hwf Hinv Hsorted Hge H; simpl in H.
  - injection H as <-. eauto.
  - apply bind_Ok in H as (db1 & Hdb1 & H).
    simpl in Hsorted, Hge. change (call_frame (f, curr, next)) with f in *.
    apply StronglySorted_cons in Hsorted as [Hlt Hsorted].
    apply Forall_cons in Hge as [Hbf _].
    apply (IH (f + 1) db1); [by eapply extend_tracks_wf | | done | | done].
    + by eapply extend_tracks_consecutive.
    + eapply Forall_impl; [exact Hlt|]. simpl; intros; lia.
Qed.

(** X2. After a run of calls with strictly increasing frame ids from the
    empty store, the frame list of every track is a run of consecutive
    integers: a track is only ever continued from the frame just before
    the new one, so a track never skips a frame. *)
Theorem frame_ids_consecutive
    (calls : list Call) (db : TracksDB) (tid : Z) (t : Track) :
  StronglySorted Z.lt (map call_frame calls) ->
  ingest calls TracksDB_init = Ok db ->
  tracks db !! tid = Some t ->
  exists c, frame_ids t = seqZ c (Z.of_nat (length (frame_ids t))).
Proof.
  intros Hsorted Hrun Ht.
  set (b := match calls with [] => 0 | c :: _ => call_frame c end).
  destruct (ingest_consecutive b calls TracksDB_init db) as [b' Hb'];
    [apply TracksDB_init_wf | apply map_Forall_empty | done | | done |].
  - subst b. destruct calls as [|c cs]; [constructor|].
    simpl in *. apply StronglySorted_cons in Hsorted as [Hlt _].
    constructor; [lia|]. eapply Forall_impl; [exact Hlt|]. simpl; intros; lia.
  - by destruct (Hb' tid t Ht) as [Hc _].
Qed.

(** ** What [add_frame] stores *)

Lemma py_map_lookup {A B} (g : A -> result B) (l : list A) (l' : list B) :
  py_map g l = Ok l' ->
  length l' = length l /\
  forall j y, l' !! j = Some y -> exists x, l !! j = Some x /\ g x = Ok y.
Proof.
  revert l'; induction l as [|x l IH]; intros l' H; simpl in H.
  - injection H as <-. split; [done|]. intros j y Hj. by destruct j.
  - apply bind_Ok in H as (y0 & Hy0 & H).
    apply bind_Ok in H as (ys & Hys & H).
    injection H as <-. destruct (IH ys Hys) as [Hlen Hlook]. split.
    + simpl. by rewrite Hlen.
    + intros [|j] y Hj; simpl in *.
      * injection Hj as <-. eauto.
      * by apply Hlook.
Qed.

Lemma np_where_first_spec (arr : list KeyPoint) (k : KeyPoint) (i : nat) :
  np_where_first arr k = Ok i ->
  (exists c, arr !! i = Some c /\ kp_match c k = true) /\
  (forall j c, (j < i)%nat -> arr !! j = Some c -> kp_match c k = false).
Proof.
  revert i; induction arr as [|x arr IH]; intros i H; simpl in H; [discriminate|].
  destruct (kp_match x k) eqn:Hx.
  - injection H as <-. split; [by exists x|]. intros j c Hj. lia.
  - apply bind_Ok in H as (i' & Hi' & H). injection H as <-.
    destruct (IH i' Hi') as [Hhit Hmiss]. split; [done|].
    intros [|j] c Hj Hc; simpl in Hc.
    + by injection Hc as <-.
    + apply (Hmiss j); [lia | done].
Qed.

(** X3. When [add_frame] returns, the entry it stores under the new frame
    is a pair of arrays of one length, no longer than the left array of
    the track's last entry. Its [j]-th left and right key points are the
    next-frame key points at one position [i] of the next arrays, and [i]
    is the first position of the current left array whose key point
    matches a left key point [k] of the track's last entry. *)
Theorem add_frame_entry (f : Z) (curr next : Inliers) (t t' : Track) :
  add_frame f curr next t = Ok t' ->
  exists lst l r nl nr,
    last (frame_ids t) = Some lst /\
    kp t !! lst = Some (KpPair l r) /\
    kp t' !! f = Some (KpPair nl nr) /\
    length nl = length nr /\ (length nl <= length l)%nat /\
    forall j a b, nl !! j = Some a -> nr !! j = Some b ->
      exists i k, k ∈ l /\ np_where_first (fst curr) k = Ok i /\
        (exists c, fst curr !! i = Some c /\ kp_match c k = true) /\
        fst next !! i = Some a /\ snd next !! i = Some b.
Proof.
  unfold add_frame. intros H.
  apply bind_Ok in H as (lst & Hlst & H). apply of_option_Ok in Hlst.
  apply bind_Ok in H as (e & He & H). apply of_option_Ok in He.
  apply bind_Ok in H as (l & Hl & H).
  destruct e as [l0 r|]; simpl in Hl; [|discriminate]. injection Hl as ->.
  apply bind_Ok in H as (idx & Hidx & H).
  apply bind_Ok in H as (nl & Hnl & H).
  apply bind_Ok in H as (nr & Hnr & H).
  injection H as <-. simpl.
  exists lst, l, r, nl, nr.
  destruct (py_map_lookup _ _ _ Hidx) as [Hlen_idx Hlook_idx].
  destruct (py_map_lookup _ _ _ Hnl) as [Hlen_nl Hlook_nl].
  destruct (py_map_lookup _ _ _ Hnr) as [Hlen_nr Hlook_nr].
  split; [done|]. split; [done|]. split; [by rewrite lookup_insert_eq|].
  split; [congruence|]. split.
  { rewrite Hlen_nl, Hlen_idx. apply length_filter. }
  intros j a b Ha Hb.
  destruct (Hlook_nl j a Ha) as (i & Hi & Hai). apply of_option_Ok in Hai.
  destruct (Hlook_nr j b Hb) as (i' & Hi' & Hbi). apply of_option_Ok in Hbi.
  assert (i' = i) as -> by congruence.
  destruct (Hlook_idx j i Hi) as (k & Hk & Hwhere).
  exists i, k. split.
  - apply list_elem_of_lookup_2 in Hk. by apply list_elem_of_filter in Hk as [_ ?].
  - split; [done|]. split; [|done]. by apply np_where_first_spec in Hwhere as [? _].
Qed.

(** ** Runs of calls *)

Lemma ingest_app (calls1 calls2 : list Call) (db : TracksDB) :
  ingest (calls1 ++ calls2) db = ingest calls1 db ≫= ingest calls2.
Proof.
  revert db; induction calls1 as [|[[f curr] next] calls1 IH]; intros db; simpl; [done|].
  destruct (extend_tracks f curr next db) as [db1|e]; simpl; [apply IH | done].
Qed.

Lemma ingest_frame_ids_from (calls : list Call) (db db' : TracksDB) :
  ingest calls db = Ok db' ->
  db_frame_ids db' = db_frame_ids db ++ map call_frame calls.
Proof.
  revert db; induction calls as [|[[f curr] next] calls IH]; intros db H; simpl in H.
  - injection H as <-. by rewrite app_nil_r.
  - apply bind_Ok in H as (db1 & Hdb1 & H). rewrite (IH _ H).
    apply extend_tracks_inv in Hdb1 as (rel & db2 & _ & _ & ->). simpl.
    by rewrite <- app_assoc.
Qed.

(** X4. After a run of calls from the empty store, the store's own
    [frame_ids] list is the list of the frame ids of the calls, in call
    order, one entry per call: it has as many entries as there are
    tracks, whatever frames the tracks span. *)
Theorem ingest_frame_ids (calls : list Call) (db : TracksDB) :
  ingest calls TracksDB_init = Ok db ->
  db_frame_ids db = map call_frame calls /\
  length (db_frame_ids db) = length (track_ids db).
Proof.
  intros Hrun.
  pose proof (ingest_frame_ids_from _ _ _ Hrun) as Hf. simpl in Hf.
  split; [exact Hf|].
  pose proof (ingest_wf _ _ _ TracksDB_init_wf Hrun) as (_ & Hids & _).
  pose proof (ingest_counter _ _ _ Hrun) as Hcnt. simpl in Hcnt.
  rewrite Hf, Hids, length_map, length_seqZ, Hcnt. lia.
Qed.

Lemma ingest_keeps (calls : list Call) (db db' : TracksDB) (tid : Z) (t : Track) (g : Z) :
  db_wf db -> ingest calls db = Ok db' ->
  tracks db !! tid = Some t ->
  Forall (fun f => f <> g) (map call_frame calls) ->
  exists t', tracks db' !! tid = Some t' /\ track_id t' = track_id t /\
             frame_ids t `prefix_of` frame_ids t' /\ kp t' !! g = kp t !! g.
Proof.
  revert db t; induction calls as [|[[f curr] next] calls IH];
    intros db t Hwf H Ht Hne; simpl in H.
  - injection H as <-. exists t. done.
  - apply bind_Ok in H as (db1 & Hdb1 & H).
    simpl in Hne. change (call_frame (f, curr, next)) with f in *.
    apply Forall_cons in Hne as [Hfg Hne].
    destruct (extend_tracks_grows _ _ _ _ _ _ _ Hwf Hdb1 Ht)
      as (t1 & Ht1 & Hid1 & Hpre1 & Hkp1).
    destruct (IH db1 t1) as (t' & Ht' & Hid & Hpre & Hkp);
      [by eapply extend_tracks_wf | done..|].
    exists t'. split; [done|]. split; [congruence|]. split; [by etrans|].
    rewrite Hkp. apply Hkp1. congruence.
Qed.

(** X5. After a run of calls with strictly increasing frame ids from the
    empty store, the track stored under id [i] is the one the [i]-th call
    created: it carries the id [i], its first frame is the frame id of
    that call, and its entry at that frame is still the pair of
    next-frame arrays of that call. *)
Theorem track_of_call
    (calls : list Call) (i : nat) (f : Z) (curr next : Inliers) (db : TracksDB) :
  StronglySorted Z.lt (map call_frame calls) ->
  ingest calls TracksDB_init = Ok db ->
  calls !! i = Some (f, curr, next) ->
  exists t, tracks db !! Z.of_nat i = Some t /\ track_id t = Z.of_nat i /\
            head (frame_ids t) = Some f /\
            kp t !! f = Some (KpPair (fst next) (snd next)).
Proof.
  intros Hsorted Hrun Hi.
  pose proof (take_drop_middle _ _ _ Hi) as Hsplit.
  rewrite <- Hsplit, ingest_app in Hrun.
  apply bind_Ok in Hrun as (db0 & Hdb0 & Hrun). simpl in Hrun.
  apply bind_Ok in Hrun as (db1 & Hdb1 & Hrun).
  pose proof (ingest_wf _ _ _ TracksDB_init_wf Hdb0) as Hwf0.
  pose proof (extend_tracks_wf _ _ _ _ _ Hwf0 Hdb1) as Hwf1.
  pose proof (ingest_counter _ _ _ Hdb0) as Hcnt. simpl in Hcnt.
  apply lookup_lt_Some in Hi as Hlen.
  unfold Call in *.
  rewrite length_take_le in Hcnt by lia.
  apply extend_tracks_inv in Hdb1 as (rel & db2 & _ & _ & Heq).
  assert (tracks db1 !! Z.of_nat i = Some (new_track (Z.of_nat i) f next)) as Hnew.
  { rewrite Heq. simpl. rewrite Hcnt. apply lookup_insert_eq. }
  rewrite <- Hsplit, map_app in Hsorted. simpl in Hsorted.
  apply StronglySorted_app_1_r, StronglySorted_cons in Hsorted as [Hlt _].
  destruct (ingest_keeps _ _ _ _ _ f Hwf1 Hrun Hnew) as (t & Ht & Hid & Hpre & Hkp).
  { eapply Forall_impl; [exact Hlt|]. simpl. unfold call_frame at 1. simpl. intros; lia. }
  exists t. split; [done|]. split; [done|]. split.
  - destruct Hpre as [k ->]. done.
  - rewrite Hkp. simpl. apply lookup_singleton_eq.
Qed.

(** X6. After a run of [n] calls from the empty store, [get_frame_ids]
    returns a frame list, never empty, for the ids [0 .. n-1] and raises
    [KeyError] for every other id. *)
Theorem get_frame_ids_defined (calls : list Call) (db : TracksDB) (tid : Z) :
  ingest calls TracksDB_init = Ok db ->
  (0 <= tid < Z.of_nat (length calls) ->
     exists l, get_frame_ids tid db = Ok l /\ l <> []) /\
  (~ 0 <= tid < Z.of_nat (length calls) -> get_frame_ids tid db = Raise KeyError).
Proof.
  intros Hrun.
  pose proof (ingest_wf _ _ _ TracksDB_init_wf Hrun) as (_ & Hids & Hdom & Hwf).
  pose proof (ingest_counter _ _ _ Hrun) as Hcnt. simpl in Hcnt.
  assert (is_Some (tracks db !! tid) <-> 0 <= tid < Z.of_nat (length calls)) as Hiff.
  { rewrite Hdom, Hids, elem_of_seqZ. lia. }
  unfold get_frame_ids, get_track. split; intros Hrange.
  - apply Hiff in Hrange as [t Ht]. rewrite Ht. simpl.
    exists (frame_ids t). split; [done|]. by destruct (Hwf tid t Ht) as [? _].
  - destruct (tracks db !! tid) as [t|] eqn:Ht; [|done].
    exfalso. apply Hrange, Hiff. eauto.
Qed.

(** ** Adding tracks by hand *)

(** X7. [add_new_track] does not move the id counter. If a track is
    added under the id the counter stands at, the next [extend_tracks]
    that returns stores its new track under that id: the added track is
    gone, and the id is listed twice in [track_ids]. *)
Theorem add_new_track_then_extend
    (t : Track) (f : Z) (curr next : Inliers) (db db' : TracksDB) :
  track_id t = db_track_id db ->
  extend_tracks f curr next (add_new_track t db) = Ok db' ->
  tracks db' !! track_id t = Some (new_track (track_id t) f next) /\
  track_ids db' = track_ids db ++ [track_id t; track_id t].
Proof.
  intros Hid H.
  apply extend_tracks_inv in H as (rel & db1 & _ & _ & ->). simpl.
  rewrite <- Hid. split; [apply lookup_insert_eq|]. by rewrite <- app_assoc.
Qed.

Lemma add_track_wf (t : Track) (db : TracksDB) :
  db_wf db -> track_wf t -> db_wf (add_track t db).
Proof.
  intros (Hpos & Hids & Hdom & Hwf) Ht. unfold add_track.
  split; [|split; [|split]]; simpl.
  - lia.
  - rewrite Hids. by rewrite seqZ_snoc.
  - intros tid. rewrite elem_of_app, list_elem_of_singleton, <- Hdom,
      lookup_insert_is_Some.
    destruct (decide (db_track_id db = tid)) as [Heq|Hne].
    + split; intros _; [by right | by left].
    + split; [intros [?|[_ ?]]; [congruence | by left]
             | intros [?|?]; [by right | congruence]].
  - by apply map_Forall_insert_2.
Qed.

(** X8. [add_track] stores the track under the counter value and moves
    the counter, so it keeps a store well formed; an [extend_tracks] that
    follows keeps the added track under its key (continued by the new
    frame or unchanged) and creates its own track under the next id. *)
Theorem add_track_then_extend
    (t : Track) (f : Z) (curr next : Inliers) (db db' : TracksDB) :
  db_wf db -> track_wf t ->
  extend_tracks f curr next (add_track t db) = Ok db' ->
  db_wf db' /\
  (exists t', tracks db' !! db_track_id db = Some t' /\ grows f t t') /\
  tracks db' !! (db_track_id db + 1) = Some (new_track (db_track_id db + 1) f next).
Proof.
  intros Hwf Ht H.
  pose proof (add_track_wf _ _ Hwf Ht) as Hwf1.
  split; [by eapply extend_tracks_wf|]. split.
  - eapply extend_tracks_grows; [exact Hwf1 | exact H |].
    unfold add_track; simpl. apply lookup_insert_eq.
  - apply extend_tracks_inv in H as (rel & db1 & _ & _ & ->). simpl.
    apply lookup_insert_eq.
Qed.

(** ** Order of the ids that [get_track_ids] returns *)

Lemma StronglySorted_sublist {A} (R : A -> A -> Prop) (l1 l2 : list A) :
  l1 `sublist_of` l2 -> StronglySorted R l2 -> StronglySorted R l1.
Proof.
  induction 1 as [|x l1 l2 Hsub IH|x l1 l2 Hsub IH]; intros Hs.
  - constructor.
  - apply StronglySorted_cons in Hs as [Hall Hs].
    constructor; [by apply IH|].
    rewrite Forall_forall in Hall |- *. intros y Hy. apply Hall.
    by eapply elem_of_sublist.
  - apply StronglySorted_cons in Hs as [_ Hs]. by apply IH.
Qed.

(** X9. After a run of [n] calls from the empty store, [get_track_ids]
    raises nothing for any frame id, and the ids it returns are in
    strictly increasing order (creation order) and among [0 .. n-1]. *)
Theorem get_track_ids_increasing (calls : list Call) (db : TracksDB) (f : Z) :
  ingest calls TracksDB_init = Ok db ->
  exists l, get_track_ids f db = Ok l /\ StronglySorted Z.lt l /\
            forall tid, tid ∈ l -> 0 <= tid < Z.of_nat (length calls).
Proof.
  intros Hrun.
  pose proof (ingest_wf _ _ _ TracksDB_init_wf Hrun) as (_ & Hids & Hdom & _).
  pose proof (ingest_counter _ _ _ Hrun) as Hcnt. simpl in Hcnt.
  destruct (py_filter_total
    (fun tid => t ← get_track db tid; Ok (bool_decide (f ∈ frame_ids t)))
    (track_ids db)) as [l Hl].
  { intros tid Htid. apply Hdom in Htid as [t Ht].
    unfold get_track. rewrite Ht; simpl. eauto. }
  exists l. split; [exact Hl|].
  apply py_filter_sublist in Hl. rewrite Hids in Hl. split.
  - eapply StronglySorted_sublist; [exact Hl | apply seqZ_sorted].
  - intros tid Htid. eapply elem_of_sublist in Htid; [|exact Hl].
    apply elem_of_seqZ in Htid. lia.
Qed.

(** ** The exceptions of [extend_tracks] *)

Lemma py_map_Raise {A B} (g : A -> result B) (l : list A) (e : exn) :
  py_map g l = Raise e -> exists x, x ∈ l /\ g x = Raise e.
Proof.
  induction l as [|x l IH]; simpl; [discriminate|]. intros H.
  destruct (g x) as [y|e'] eqn:Hx; simpl in H.
  - destruct (py_map g l) as [ys|e'] eqn:Hl; simpl in H; [discriminate|].
    destruct (IH H) as (z & Hz & Hgz). exists z. split; [by right | done].
  - exists x. split; [left | congruence].
Qed.

Lemma py_for_Raise {A S} (body : A -> S -> result S) (I : S -> Prop)
    (l : list A) (s : S) (e : exn) :
  (forall x s1 s2, x ∈ l -> I s1 -> body x s1 = Ok s2 -> I s2) ->
  I s -> py_for body l s = Raise e ->
  exists x s1, x ∈ l /\ I s1 /\ body x s1 = Raise e.
Proof.
  revert s; induction l as [|x l IH]; intros s Hb Hs H; simpl in H; [discriminate|].
  destruct (body x s) as [s1|e'] eqn:Hx; simpl in H.
  - destruct (IH s1) as (y & s2 & Hy & Hs2 & Hraise); [| |exact H|].
    + intros z t1 t2 Hz. apply Hb. by right.
    + eapply Hb; [left | exact Hs | exact Hx].
    + exists y, s2. split; [by right | done].
  - exists x, s. split; [left|]. split; [done | congruence].
Qed.

Lemma add_frame_Raise (f : Z) (curr next : Inliers) (t : Track) (e : exn) :
  track_wf t -> add_frame f curr next t = Raise e ->
  e = IndexError /\ ~ aligned curr next.
Proof.
  intros Hwf H. split.
  - destruct Hwf as (Hne & Hdom & Hpairs). unfold add_frame in H.
    destruct (last (frame_ids t)) as [lst|] eqn:Hlast;
      [|by apply last_None in Hlast].
    unfold py_last in H; rewrite Hlast in H; simpl in H.
    destruct (Hdom lst) as [en He].
    { apply last_Some in Hlast as [l' ->]. apply elem_of_app; right. left. }
    unfold get_kp in H; rewrite He in H; simpl in H.
    destruct (Hpairs lst en He) as (l & r & ->); simpl in H.
    destruct (py_map (np_where_first (fst curr)) _) as [idx|e'] eqn:Hidx; simpl in H.
    + destruct (np_take (fst next) idx) as [nl|e'] eqn:Hnl; simpl in H.
      * destruct (np_take (snd next) idx) as [nr|e'] eqn:Hnr; simpl in H;
          [discriminate|]. injection H as <-.
        apply py_map_Raise in Hnr as (i & _ & Hi).
        destruct (snd next !! i); simpl in Hi; congruence.
      * injection H as <-.
        apply py_map_Raise in Hnl as (i & _ & Hi).
        destruct (fst next !! i); simpl in Hi; congruence.
    + apply py_map_Raise in Hidx as (k & Hk & Hraise).
      apply list_elem_of_filter in Hk as [Hk _].
      destruct (np_where_first_total _ _ Hk) as [i Hi]. congruence.
  - intros Hal. destruct (add_frame_total f curr next t Hwf Hal) as [t' Ht'].
    congruence.
Qed.

(** X10. On a store that ingestion has built, the only exception
    [extend_tracks] raises is [IndexError], and it raises it only when one
    of the next-frame arrays is shorter than the current left array. *)
Theorem extend_tracks_raises_IndexError
    (calls : list Call) (f : Z) (curr next : Inliers) (db : TracksDB) (e : exn) :
  ingest calls TracksDB_init = Ok db ->
  extend_tracks f curr next db = Raise e ->
  e = IndexError /\
  ((length (fst next) < length (fst curr))%nat \/
   (length (snd next) < length (fst curr))%nat).
Proof.
  intros Hrun H.
  pose proof (ingest_wf _ _ _ TracksDB_init_wf Hrun) as Hwf.
  assert (~ aligned curr next) as Hnal.
  { intros Hal. destruct (extend_tracks_total f curr next db Hwf Hal) as [db' Hdb'].
    congruence. }
  split; [|unfold aligned in Hnal; lia].
  destruct Hwf as (Hpos & Hids & Hdom & Hwf).
  destruct (relevant_tracks_total f curr db) as [rel Hrel]; [|done|].
  { intros tid Htid. by apply Hdom. }
  assert (forall tid, tid ∈ rel -> is_Some (tracks db !! tid)) as Hreldom.
  { intros tid Htid. apply Hdom.
    eapply elem_of_sublist; [done | by eapply relevant_tracks_sublist]. }
  unfold extend_tracks in H. rewrite Hrel in H; simpl in H.
  destruct (py_for (extend_one f curr next) rel db) as [db1|e1] eqn:Hloop; simpl in H.
  - destruct (collect_kp_total rel db1) as [m Hm].
    { intros tid Htid. destruct (Hreldom tid Htid) as [t Ht].
      destruct (extend_loop_grows _ _ _ _ _ _ Hloop tid) as [_ Hsome].
      destruct (Hsome t Ht) as (t' & Ht' & _). eauto. }
    rewrite Hm in H. simpl in H. discriminate.
  - injection H as <-.
    destruct (py_for_Raise (extend_one f curr next)
      (fun s => map_Forall (fun _ t => track_wf t) (tracks s) /\
                forall tid, tid ∈ rel -> is_Some (tracks s !! tid)) rel db e1)
      as (tid & s1 & Htid & [Hs1 Hdom1] & Hraise); [|done|done|].
    + intros x s1 s2 _ [Hs1 Hdom1] Hone.
      apply extend_one_inv in Hone as (t & t' & Ht & Ht' & ->). simpl. split.
      * apply map_Forall_insert_2; [|done].
        eapply add_frame_wf; [|exact Ht']. by eapply Hs1.
      * intros tid Htid. destruct (decide (x = tid)) as [->|Hne].
        -- rewrite lookup_insert_eq. eauto.
        -- rewrite lookup_insert_ne by done. by apply Hdom1.
    + destruct (Hdom1 tid Htid) as [t Ht].
      unfold extend_one, get_track in Hraise. rewrite Ht in Hraise. simpl in Hraise.
      destruct (add_frame f curr next t) as [t'|e'] eqn:Hadd; simpl in Hraise;
        [discriminate|]. injection Hraise as <-.
      eapply add_frame_Raise; [|exact Hadd]. by eapply Hs1.
Qed.

(** ** The driver [run_sequence] *)

Lemma extend_tracks_frames_in (P : Z -> Prop) (f : Z) (curr next : Inliers)
    (db db' : TracksDB) :
  map_Forall (fun _ t => Forall P (frame_ids t)) (tracks db) -> P f ->
  extend_tracks f curr next db = Ok db' ->
  map_Forall (fun _ t => Forall P (frame_ids t)) (tracks db').
Proof.
  intros Hinv Hf H.
  apply extend_tracks_inv in H as (rel & db1 & _ & Hdb1 & ->). simpl.
  apply map_Forall_insert_2; [simpl; by repeat constructor|].
  revert Hdb1.
  apply (py_for_invariant _
    (fun s => map_Forall (fun _ t => Forall P (frame_ids t)) (tracks s))); [|done].
  intros x s1 s2 _ Hs1 Hone.
  apply extend_one_inv in Hone as (t & t' & Ht & Ht' & ->). simpl.
  apply map_Forall_insert_2; [|done].
  apply add_frame_inv in Ht' as (nl & nr & ->). simpl.
  apply Forall_app. split; [by eapply Hs1 | by repeat constructor].
Qed.

Lemma ingest_frames_in (P : Z -> Prop) (calls : list Call) (db db' : TracksDB) :
  map_Forall (fun _ t => Forall P (frame_ids t)) (tracks db) ->
  Forall P (map call_frame calls) ->
  ingest calls db = Ok db' ->
  map_Forall (fun _ t => Forall P (frame_ids t)) (tracks db').
Proof.
  revert db; induction calls as [|[[f curr] next] calls IH]; intros db Hinv HP H;
    simpl in H.
  - by injection H as <-.
  - apply bind_Ok in H as (db1 & Hdb1 & H).
    simpl in HP. change (call_frame (f, curr, next)) with f in *.
    apply Forall_cons in HP as [Hf HP].
    apply (IH db1); [|done..]. by eapply extend_tracks_frames_in.
Qed.

Lemma run_sequence_calls_elem (start_frame end_frame : Z) (c : Call) :
  c ∈ run_sequence_calls start_frame end_frame ->
  start_frame <= call_frame c < end_frame /\
  track_movement_successive (call_frame c) = Some (snd (fst c), snd c).
Proof.
  unfold run_sequence_calls. intros Hc.
  apply list_elem_of_omap in Hc as (idx & Hidx & Hcall).
  apply elem_of_seqZ in Hidx. unfold call_of_frame in Hcall.
  destruct (track_movement_successive idx) as [[curr next]|] eqn:Hfront;
    [|discriminate].
  injection Hcall as <-. unfold call_frame. simpl. split; [lia | done].
Qed.

Lemma ingest_track_at
    (calls : list Call) (i : nat) (f : Z) (curr next : Inliers) (db : TracksDB) :
  StronglySorted Z.lt (map call_frame calls) ->
  ingest calls TracksDB_init = Ok db ->
  calls !! i = Some (f, curr, next) ->
  tracks db !! Z.of_nat i <> None /\
  forall t, tracks db !! Z.of_nat i = Some t ->
    track_id t = Z.of_nat i /\ head (frame_ids t) = Some f /\
    kp t !! f = Some (KpPair (fst next) (snd next)).
Proof.
  intros Hsorted Hrun Hi.
  pose proof (take_drop_middle _ _ _ Hi) as Hsplit.
  rewrite <- Hsplit, ingest_app in Hrun.
  apply bind_Ok in Hrun as (db0 & Hdb0 & Hrun). simpl in Hrun.
  apply bind_Ok in Hrun as (db1 & Hdb1 & Hrun).
  pose proof (ingest_wf _ _ _ TracksDB_init_wf Hdb0) as Hwf0.
  pose proof (extend_tracks_wf _ _ _ _ _ Hwf0 Hdb1) as Hwf1.
  pose proof (ingest_counter _ _ _ Hdb0) as Hcnt. simpl in Hcnt.
  apply lookup_lt_Some in Hi as Hlen.
  unfold Call in *.
  rewrite length_take_le in Hcnt by lia.
  apply extend_tracks_inv in Hdb1 as (rel & db2 & _ & _ & Heq).
  assert (tracks db1 !! Z.of_nat i = Some (new_track (Z.of_nat i) f next)) as Hnew.
  { rewrite Heq. simpl. rewrite Hcnt. apply lookup_insert_eq. }
  rewrite <- Hsplit, map_app in Hsorted. simpl in Hsorted.
  apply StronglySorted_app_1_r, StronglySorted_cons in Hsorted as [Hlt _].
  destruct (ingest_keeps _ _ _ _ _ f Hwf1 Hrun Hnew) as (t & Ht & Hid & Hpre & Hkp).
  { eapply Forall_impl; [exact Hlt|]. simpl. unfold call_frame at 1. simpl. intros; lia. }
  split; [congruence|]. intros t' Ht'. rewrite Ht in Ht'. injection Ht' as <-.
  split; [done|]. split.
  - destruct Hpre as [k ->]. done.
  - rewrite Hkp. simpl. apply lookup_singleton_eq.
Qed.

(** X11. When the front end only returns aligned arrays, the file
    [tracks_db.pkl] can be opened for writing and [pickle] can write a
    store, [run_sequence] raises nothing. It returns a store with one
    track per frame pair that the front end accepted, under the ids
    [0 .. n-1] in the order of the frames: the track under id [i] starts
    at the frame of the [i]-th accepted pair and holds the next-frame
    arrays of that pair there. Every frame id in every track lies in
    [range(start_frame, end_frame)] and is a frame the front end accepted;
    for an empty range the store is the empty one. The file
    [tracks_db.pkl] then holds this store, as [deserialize] reads it, and
    no other file has changed. *)
Theorem run_sequence_total (start_frame end_frame : Z) (fs : FileSystem) :
  (forall idx curr next,
     track_movement_successive idx = Some (curr, next) -> aligned curr next) ->
  open_wb "tracks_db.pkl"%string = true ->
  (forall db, exists b, pickle_dumps db = Ok b) ->
  exists db fs',
    run_sequence start_frame end_frame fs = Ok (db, fs') /\
    deserialize "tracks_db.pkl"%string fs' = Ok db /\
    (forall name, name <> "tracks_db.pkl"%string -> fs' !! name = fs !! name) /\
    db_track_id db = Z.of_nat (length (run_sequence_calls start_frame end_frame)) /\
    track_ids db
      = seqZ 0 (Z.of_nat (length (run_sequence_calls start_frame end_frame))) /\
    (forall tid, is_Some (tracks db !! tid) <->
       0 <= tid < Z.of_nat (length (run_sequence_calls start_frame end_frame))) /\
    (forall i f curr next,
       run_sequence_calls start_frame end_frame !! i = Some (f, curr, next) ->
       track_movement_successive f = Some (curr, next) /\
       exists t, tracks db !! Z.of_nat i = Some t /\ track_id t = Z.of_nat i /\
                 head (frame_ids t) = Some f /\
                 kp t !! f = Some (KpPair (fst next) (snd next))) /\
    (end_frame <= start_frame -> db = TracksDB_init) /\
    forall tid t g, tracks db !! tid = Some t -> g ∈ frame_ids t ->
      start_frame <= g < end_frame /\ is_Some (track_movement_successive g).
Proof.
  intros Hfront Hopen Hpickle. unfold run_sequence.
  destruct (ingest_total (run_sequence_calls start_frame end_frame) TracksDB_init)
    as [db Hdb]; [apply TracksDB_init_wf | |].
  { apply Forall_forall. intros [[f curr] next] Hc.
    apply run_sequence_calls_elem in Hc as [_ Hc]. simpl in *. by eapply Hfront. }
  destruct (Hpickle db) as [b Hb].
  pose proof (ingest_wf _ _ _ TracksDB_init_wf Hdb) as (_ & Hids & Hdom & _).
  pose proof (ingest_counter _ _ _ Hdb) as Hcnt. simpl in Hcnt.
  exists db, (<[("tracks_db.pkl"%string) := b]> fs).
  split; [|split; [|split; [|split; [|split; [|split; [|split; [|split]]]]]]].
  - rewrite Hdb. simpl. unfold serialize. rewrite Hopen, Hb. done.
  - unfold deserialize, FileSystem. rewrite lookup_insert_eq. simpl.
    by apply pickle_loads_dumps.
  - intros name Hname. unfold FileSystem. by rewrite lookup_insert_ne.
  - done.
  - by rewrite Hids, Hcnt.
  - intros tid. rewrite Hdom, Hids, elem_of_seqZ. lia.
  - intros i f curr next Hi. split.
    + apply list_elem_of_lookup_2 in Hi.
      apply run_sequence_calls_elem in Hi as [_ Hi]. exact Hi.
    + destruct (ingest_track_at _ i f curr next db
                  (run_sequence_calls_increasing start_frame end_frame) Hdb Hi)
        as [Hsome Ht].
      destruct (tracks db !! Z.of_nat i) as [t|] eqn:Hlook; [|done].
      exists t. split; [done|]. by apply Ht.
  - intros Hempty. unfold run_sequence_calls in Hdb.
    rewrite seqZ_nil in Hdb by lia. simpl in Hdb. by injection Hdb as <-.
  - intros tid t g Ht Hg.
    assert (Forall (fun g => start_frame <= g < end_frame /\
                             is_Some (track_movement_successive g))
              (map call_frame (run_sequence_calls start_frame end_frame))) as Hcalls.
    { apply Forall_forall. intros g' Hg'.
      apply list_elem_of_fmap in Hg' as (c & -> & Hc).
      apply run_sequence_calls_elem in Hc as [Hrange Hsome].
      split; [done|]. rewrite Hsome. eauto. }
    pose proof (ingest_frames_in _ _ _ _ (map_Forall_empty _) Hcalls Hdb tid t Ht)
      as Hall.
    rewrite Forall_forall in Hall. by apply Hall.
Qed.

(** ** More on [relative_to_absolute_poses] *)

Lemma chain_fold_init (zs : list (Pose3 * list Point3 * Pose3)) (s : Chain) (n : nat) :
  length (abs_init s) = S n ->
  abs_init s !! n = Some (base_init s) ->
  let s' := fold_left chain_step zs s in
  length (abs_init s') = (S n + length zs)%nat /\
  abs_init s `prefix_of` abs_init s' /\
  forall i z, zs !! i = Some z ->
    exists prev, abs_init s' !! (n + i)%nat = Some prev /\
                 abs_init s' !! S (n + i) = Some (compose prev (snd z)).
Proof.
  revert s n; induction zs as [|z0 zs IH]; intros s n Hlen Hlast; simpl.
  - split; [lia|]. split; [done|]. intros i z Hz. done.
  - set (s1 := chain_step s z0).
    assert (abs_init s1 = abs_init s ++ [compose (base_init s) (snd z0)]
            /\ base_init s1 = compose (base_init s) (snd z0)) as [Habs Hbase].
    { subst s1. unfold chain_step. by destruct z0 as [[? ?] ?]. }
    destruct (IH s1 (S n)) as (Hlen' & Hpre & Hstep).
    { rewrite Habs, length_app, Hlen. simpl; lia. }
    { rewrite Habs, Hbase, lookup_app_r by lia.
      by replace (S n - length (abs_init s))%nat with 0%nat by lia. }
    assert (abs_init s `prefix_of` abs_init s1) as Hpre1.
    { rewrite Habs. by apply prefix_app_r. }
    split; [simpl; lia|]. split; [by etrans|].
    intros i z Hz. destruct i as [|i]; simpl in Hz.
    + injection Hz as ->. exists (base_init s).
      replace (n + 0)%nat with n by lia. split.
      * eapply prefix_lookup_Some; [exact Hlast | by etrans].
      * eapply prefix_lookup_Some; [|exact Hpre].
        rewrite Habs, lookup_app_r by lia.
        by replace (S n - length (abs_init s))%nat with 0%nat by lia.
    + destruct (Hstep i z Hz) as (prev & Hprev & Hnext).
      exists prev. by replace (n + S i)%nat with (S n + i)%nat by lia.
Qed.

Lemma chain_fold_points (zs : list (Pose3 * list Point3 * Pose3)) (s : Chain) :
  let s' := fold_left chain_step zs s in
  exists ext, abs_cameras s' = abs_cameras s ++ ext /\ length ext = length zs /\
    abs_points s' = abs_points s ++
      concat (zip_with (fun c z => map (transformFrom c) (snd (fst z))) ext zs).
Proof.
  revert s; induction zs as [|z0 zs IH]; intros s; simpl.
  - exists []. by rewrite !app_nil_r.
  - destruct (IH (chain_step s z0)) as (ext & Hc & Hlen & Hp).
    destruct z0 as [[cam pts] ini]. simpl in *.
    exists (compose (base_camera s) cam :: ext). split; [|split].
    + rewrite Hc. by rewrite <- app_assoc.
    + simpl. by rewrite Hlen.
    + rewrite Hp. simpl. by rewrite <- app_assoc.
Qed.

Lemma zip_with_zip3_points {A B C D E} (g : E -> B -> D)
    (ext : list E) (a : list A) (b : list B) (c : list C) :
  length ext = length (zip3 a b c) ->
  zip_with (fun x z => g x (snd (fst z))) ext (zip3 a b c) = zip_with g ext b.
Proof.
  revert ext b c; induction a as [|x a IH]; intros ext [|y b] [|z c] Hlen;
    simpl in *; try (destruct ext; [done | discriminate]).
  destruct ext as [|e ext]; [done|]. simpl. f_equal. apply IH. simpl in Hlen. lia.
Qed.

(** X12. [relative_to_absolute_poses] chains the initial cameras as it
    chains the cameras: the first absolute initial camera is the first
    initial camera, every later one is the one before it composed with the
    initial camera at its own position, and there are as many of them as
    absolute cameras. *)
Theorem relative_to_absolute_poses_init_chain
    (cameras : list Pose3) (points : list (list Point3)) (init_cams : list Pose3) :
  cameras <> [] -> init_cams <> [] ->
  exists abs_c abs_p abs_i,
    relative_to_absolute_poses cameras points init_cams = Ok (abs_c, abs_p, abs_i) /\
    length abs_i = length abs_c /\
    abs_i !! 0%nat = init_cams !! 0%nat /\
    (forall i, (S i < length abs_i)%nat ->
       exists prev rel, abs_i !! i = Some prev /\ init_cams !! S i = Some rel /\
                        abs_i !! S i = Some (compose prev rel)).
Proof.
  intros Hc Hi.
  destruct cameras as [|cam0 cams]; [done|].
  destruct init_cams as [|ini0 inis]; [done|].
  unfold relative_to_absolute_poses; simpl.
  set (s0 := {| base_camera := cam0; base_init := ini0; abs_points := [];
                abs_cameras := [cam0]; abs_init := [ini0] |}).
  set (zs := zip3 cams points inis).
  destruct (chain_fold_init zs s0 0) as (Hlen & Hpre & Hstep); [done..|].
  destruct (chain_fold zs s0 0) as (Hlenc & _ & _); [done..|].
  eexists _, _, _. split; [reflexivity|].
  split; [lia|]. split.
  - eapply prefix_lookup_Some; [|exact Hpre]. done.
  - intros i Hlt. rewrite Hlen in Hlt.
    destruct (lookup_lt_is_Some_2 zs i) as [[[x y] z] Hz]; [lia|].
    destruct (Hstep i _ Hz) as (prev & Hprev & Hnext).
    apply zip3_lookup in Hz as (_ & _ & Hz).
    exists prev, z. simpl. done.
Qed.

(** X13. The absolute points that [relative_to_absolute_poses] returns
    are, window by window and in order, the points of the window moved by
    [transformFrom] of the absolute camera that the same window produced
    (the camera at the end of the window), for the windows that [zip]
    kept. *)
Theorem relative_to_absolute_poses_points
    (cameras : list Pose3) (points : list (list Point3)) (init_cams : list Pose3) :
  cameras <> [] -> init_cams <> [] ->
  exists abs_c abs_p abs_i,
    relative_to_absolute_poses cameras points init_cams = Ok (abs_c, abs_p, abs_i) /\
    abs_p = concat (zip_with (fun c pts => map (transformFrom c) pts)
                             (tail abs_c) points).
Proof.
  intros Hc Hi.
  destruct cameras as [|cam0 cams]; [done|].
  destruct init_cams as [|ini0 inis]; [done|].
  unfold relative_to_absolute_poses; simpl.
  set (s0 := {| base_camera := cam0; base_init := ini0; abs_points := [];
                abs_cameras := [cam0]; abs_init := [ini0] |}).
  destruct (chain_fold_points (zip3 cams points inis) s0) as (ext & Hcams & Hlen & Hpts).
  eexists _, _, _. split; [reflexivity|].
  rewrite Hpts, Hcams. simpl.
  by rewrite <- (zip_with_zip3_points (fun c pts => map (transformFrom c) pts) ext cams points inis).
Qed.

(** ** More on [fix_ext_mat] *)



(** ** [get_bundle_windows] *)

Lemma py_for_ext {A S} (body body' : A -> S -> result S) (l : list A) (s : S) :
  (forall x s1, body x s1 = body' x s1) -> py_for body l s = py_for body' l s.
Proof.
  intros Hext. revert s; induction l as [|x l IH]; intros s; simpl; [done|].
  rewrite Hext. destruct (body' x s); simpl; [apply IH | done].
Qed.

(** A loop that appends one computed element per iteration is a
    comprehension. *)
Lemma py_for_append {A B} (g : A -> result B) (l : list A) (acc : list B) :
  py_for (fun x acc => y ← g x; Ok (acc ++ [y])) l acc
  = (ys ← py_map g l; Ok (acc ++ ys)).
Proof.
  revert acc; induction l as [|x l IH]; intros acc; simpl.
  - by rewrite app_nil_r.
  - destruct (g x) as [y|e]; simpl; [|done]. rewrite IH.
    destruct (py_map g l) as [ys|e]; simpl; [|done]. by rewrite <- app_assoc.
Qed.

Lemma py_map_Ok_map {A B} (g : A -> result B) (h : A -> B) (l : list A) :
  (forall x, x ∈ l -> g x = Ok (h x)) -> py_map g l = Ok (map h l).
Proof.
  induction l as [|x l IH]; intros Hg; simpl; [done|].
  rewrite (Hg x) by left. simpl. rewrite IH; [done|].
  intros y Hy. apply Hg. by right.
Qed.

Lemma py_get_nonneg {A} (l : list A) (i : Z) (x : A) :
  0 <= i -> l !! Z.to_nat i = Some x -> py_get l i = Ok x.
Proof.
  intros Hi Hx. unfold py_get. cbv zeta.
  rewrite (bool_decide_eq_false_2 (i < 0)) by lia.
  rewrite (bool_decide_eq_false_2 (i < 0)) by lia.
  by rewrite Hx.
Qed.

Lemma get_bundle_windows_Ok (keyframes : list Z) :
  get_bundle_windows keyframes
  = Ok (map (fun i => window_at keyframes (Z.to_nat i))
            (seqZ 0 (Z.of_nat (length keyframes) - 1))).
Proof.
  unfold get_bundle_windows.
  rewrite (py_for_ext _ (fun i acc =>
    y ← (a ← py_get keyframes i; b ← py_get keyframes (i + 1);
         Ok (py_range a (b + 1))); Ok (acc ++ [y]))).
  2:{ intros i acc. destruct (py_get keyframes i); simpl; [|done].
      destruct (py_get keyframes (i + 1)); done. }
  rewrite py_for_append.
  rewrite (py_map_Ok_map _ (fun i => window_at keyframes (Z.to_nat i))).
  { simpl. unfold py_range. do 3 f_equal. lia. }
  intros i Hi. apply elem_of_seqZ in Hi.
  destruct (lookup_lt_is_Some_2 keyframes (Z.to_nat i)) as [a Ha]; [lia|].
  destruct (lookup_lt_is_Some_2 keyframes (Z.to_nat (i + 1))) as [b Hb]; [lia|].
  rewrite (py_get_nonneg keyframes i a) by (lia || done). simpl.
  rewrite (py_get_nonneg keyframes (i + 1) b) by (lia || done). simpl.
  unfold window_at. rewrite Ha.
  replace (S (Z.to_nat i)) with (Z.to_nat (i + 1)) by lia. by rewrite Hb.
Qed.

Lemma get_bundle_windows_lookup (keyframes : list Z) (ws : list (list Z))
    (i : nat) (w : list Z) :
  get_bundle_windows keyframes = Ok ws ->
  ws !! i = Some w <->
  exists a b, keyframes !! i = Some a /\ keyframes !! S i = Some b /\
              w = seqZ a (b - a + 1).
Proof.
  rewrite get_bundle_windows_Ok. intros H. injection H as <-.
  rewrite list_lookup_fmap. split.
  - intros Hw. destruct (seqZ 0 _ !! i) as [z|] eqn:Hz; [|discriminate].
    simpl in Hw. injection Hw as <-.
    apply lookup_seqZ in Hz as [-> Hlt].
    replace (Z.to_nat (0 + Z.of_nat i)) with i by lia.
    destruct (lookup_lt_is_Some_2 keyframes i) as [a Ha]; [lia|].
    destruct (lookup_lt_is_Some_2 keyframes (S i)) as [b Hb]; [lia|].
    exists a, b. split; [done|]. split; [done|].
    unfold window_at, py_range. rewrite Ha, Hb. simpl. f_equal. lia.
  - intros (a & b & Ha & Hb & ->).
    apply lookup_lt_Some in Hb as Hlt.
    rewrite lookup_seqZ_lt by lia. simpl.
    replace (Z.to_nat (0 + Z.of_nat i)) with i by lia.
    unfold window_at, py_range. rewrite Ha, Hb. simpl. do 2 f_equal. lia.
Qed.

Lemma elem_of_window (a b g : Z) : g ∈ seqZ a (b - a + 1) <-> a <= g <= b.
Proof. rewrite elem_of_seqZ. lia. Qed.

(** X17. [get_bundle_windows] raises nothing, whatever the list. It
    returns one window per pair of neighbouring keyframes (none for a list
    of fewer than two), and the [i]-th window is the list of the frames
    from the [i]-th keyframe to the next one in increasing order, both
    included; it is empty when the next keyframe is the smaller one. *)
Theorem get_bundle_windows_spec (keyframes : list Z) :
  exists ws, get_bundle_windows keyframes = Ok ws /\
    length ws = (length keyframes - 1)%nat /\
    forall i a b, keyframes !! i = Some a -> keyframes !! S i = Some b ->
      exists w, ws !! i = Some w /\ w = seqZ a (b - a + 1) /\
                (forall g, g ∈ w <-> a <= g <= b) /\
                (b < a -> w = []).
Proof.
  eexists. split; [apply get_bundle_windows_Ok|]. split.
  - rewrite length_map, length_seqZ. lia.
  - intros i a b Ha Hb. exists (seqZ a (b - a + 1)).
    split; [|split; [done|split]].
    + apply (get_bundle_windows_lookup keyframes); [apply get_bundle_windows_Ok|].
      by exists a, b.
    + intros g. apply elem_of_window.
    + intros Hlt. apply seqZ_nil. lia.
Qed.

Lemma StronglySorted_lt_lookup (l : list Z) (i j : nat) (a b : Z) :
  StronglySorted Z.lt l -> l !! i = Some a -> l !! j = Some b ->
  (i < j)%nat -> a < b.
Proof.
  intros Hs. revert i j. induction Hs as [|x l _ IH Hall]; intros i j Ha Hb Hij.
  - done.
  - destruct j as [|j]; [lia|]. simpl in Hb. destruct i as [|i]; simpl in Ha.
    + injection Ha as <-. rewrite Forall_forall in Hall. apply Hall.
      by eapply list_elem_of_lookup_2.
    + apply (IH i j); [done..|lia].
Qed.

Lemma find_window (keyframes : list Z) (k0 kn g : Z) :
  head keyframes = Some k0 -> last keyframes = Some kn ->
  k0 < kn -> k0 <= g <= kn ->
  exists i a b, keyframes !! i = Some a /\ keyframes !! S i = Some b /\ a <= g <= b.
Proof.
  revert k0; induction keyframes as [|a l IH]; intros k0 Hhead Hlast Hlt Hg;
    [done|].
  simpl in Hhead. injection Hhead as ->.
  destruct l as [|b l]; [simpl in Hlast; injection Hlast as ->; lia|].
  destruct (decide (g <= b)) as [Hgb|Hgb].
  - exists 0%nat, k0, b. split; [done|]. split; [done|]. lia.
  - destruct (IH b) as (i & a' & b' & Ha' & Hb' & Hr); [done | | | lia |].
    + by rewrite last_cons_cons in Hlast.
    + rewrite last_cons_cons in Hlast.
      destruct l as [|c l]; [simpl in Hlast; injection Hlast as ->; lia|].
      destruct (decide (b < kn)); [done|]. lia.
    + exists (S i), a', b'. done.
Qed.

(** X18. For strictly increasing keyframes, at least two, the windows of
    [get_bundle_windows] cover exactly the frames from the first keyframe
    to the last, and two windows share a frame only when they are
    neighbours, the frame then being the keyframe between them. *)
Theorem get_bundle_windows_cover (keyframes : list Z) (k0 kn : Z) :
  StronglySorted Z.lt keyframes ->
  head keyframes = Some k0 -> last keyframes = Some kn ->
  (2 <= length keyframes)%nat ->
  exists ws, get_bundle_windows keyframes = Ok ws /\
    (forall g, (exists w, w ∈ ws /\ g ∈ w) <-> k0 <= g <= kn) /\
    (forall i j wi wj g, (i < j)%nat ->
       ws !! i = Some wi -> ws !! j = Some wj -> g ∈ wi -> g ∈ wj ->
       j = S i /\ keyframes !! j = Some g).
Proof.
  intros Hs Hhead Hlast Hlen.
  pose proof (get_bundle_windows_Ok keyframes) as Hok.
  set (ws := map _ _) in Hok.
  exists ws. split; [done|].
  pose proof (fun i w => get_bundle_windows_lookup keyframes ws i w Hok) as Hlook.
  assert (keyframes !! 0%nat = Some k0) as H0.
  { destruct keyframes; [done|]. simpl in *. done. }
  assert (keyframes !! (length keyframes - 1)%nat = Some kn) as Hn.
  { rewrite last_lookup in Hlast.
    by replace (length keyframes - 1)%nat with (pred (length keyframes)) by lia. }
  assert (forall i a, keyframes !! i = Some a -> k0 <= a <= kn) as Hbounds.
  { intros i a Ha. apply lookup_lt_Some in Ha as Hi. split.
    - destruct (decide (i = 0%nat)) as [->|Hne]; [by simplify_eq|].
      pose proof (StronglySorted_lt_lookup _ 0 i _ _ Hs H0 Ha ltac:(lia)). lia.
    - destruct (decide (i = length keyframes - 1)%nat) as [->|Hne]; [by simplify_eq|].
      pose proof (StronglySorted_lt_lookup _ i (length keyframes - 1) _ _ Hs Ha Hn
                    ltac:(lia)). lia. }
  split.
  - intros g. split.
    + intros (w & Hw & Hg). apply list_elem_of_lookup in Hw as [i Hi].
      apply Hlook in Hi as (a & b & Ha & Hb & ->).
      apply elem_of_window in Hg.
      pose proof (Hbounds _ _ Ha). pose proof (Hbounds _ _ Hb). lia.
    + intros Hg.
      assert (k0 < kn) as Hlt.
      { apply (StronglySorted_lt_lookup keyframes 0 (length keyframes - 1));
          [done..|lia]. }
      destruct (find_window keyframes k0 kn g Hhead Hlast Hlt Hg)
        as (i & a & b & Ha & Hb & Hr).
      exists (seqZ a (b - a + 1)). split; [|by apply elem_of_window].
      apply list_elem_of_lookup. exists i. apply Hlook. by exists a, b.
  - intros i j wi wj g Hij Hi Hj Hgi Hgj.
    apply Hlook in Hi as (a & b & Ha & Hb & ->).
    apply Hlook in Hj as (a' & b' & Ha' & Hb' & ->).
    apply elem_of_window in Hgi, Hgj.
    destruct (decide (j = S i)) as [->|Hne].
    + split; [done|]. assert (a' = b) as -> by congruence.
      rewrite Hb. f_equal. lia.
    + pose proof (StronglySorted_lt_lookup _ (S i) j _ _ Hs Hb Ha' ltac:(lia)). lia.
Qed.

(** ** [cameras_to_locations] *)

(** X19. For cameras whose rotation is a 3×3 array and whose translation
    has three entries, [cameras_to_locations] raises nothing and returns
    one location per camera, in order; the location of a camera is the
    fourth column of what [fix_ext_mat] returns for [[R|t]]. *)
Theorem cameras_to_locations_spec (abs_cams : list Pose3) :
  (forall cam, cam ∈ abs_cams ->
     shape (rotation_matrix cam) = (3, 3)%nat /\ rectangular (rotation_matrix cam) /\
     length (translation cam) = 3%nat) ->
  exists locs, cameras_to_locations abs_cams = Ok locs /\
    length locs = length abs_cams /\
    forall i cam loc, abs_cams !! i = Some cam -> locs !! i = Some loc ->
      exists m', fix_ext_mat (with_column (rotation_matrix cam) (translation cam))
                 = Ok m' /\ col 3 m' = Ok loc.
Proof.
  intros Hcams.
  assert (forall cam, cam ∈ abs_cams ->
    exists a b c d e f g h i x y z,
      rotation_matrix cam = [[a; b; c]; [d; e; f]; [g; h; i]] /\
      translation cam = [x; y; z]) as Hentries.
  { intros cam Hcam. destruct (Hcams cam Hcam) as (Hshape & Hrect & Ht).
    unfold shape in Hshape. injection Hshape as Hrows Hcols.
    destruct (length_3_inv _ Hrows) as (r1 & r2 & r3 & HR).
    rewrite HR in Hrect, Hcols. unfold rectangular, shape in Hrect.
    simpl in Hrect, Hcols. rewrite Hcols in Hrect.
    apply Forall_cons in Hrect as [H1 Hrect].
    apply Forall_cons in Hrect as [H2 Hrect].
    apply Forall_cons in Hrect as [H3 _].
    destruct (length_3_inv r1 H1) as (a & b & c & ->).
    destruct (length_3_inv r2 H2) as (d & e & f & ->).
    destruct (length_3_inv r3 H3) as (g & h & i & ->).
    destruct (length_3_inv _ Ht) as (x & y & z & Ht').
    exists a, b, c, d, e, f, g, h, i, x, y, z. done. }
  unfold cameras_to_locations.
  change (py_for _ abs_cams []) with
    (py_for (fun camera cam_locs =>
               loc ← (fun cam => matvec (mneg (T (rotation_matrix cam)))
                                        (translation cam)) camera;
               Ok (cam_locs ++ [loc])) abs_cams []).
  rewrite py_for_append.
  destruct (py_map_total
    (fun cam => matvec (mneg (T (rotation_matrix cam))) (translation cam)) abs_cams)
    as [locs Hlocs].
  { intros cam Hcam.
    destruct (Hentries cam Hcam) as (a & b & c & d & e & f & g & h & i & x & y & z & HR & Ht).
    rewrite HR, Ht. cbv. eauto. }
  rewrite Hlocs. simpl. exists locs. split; [done|].
  destruct (py_map_lookup _ _ _ Hlocs) as [Hlen Hlook]. split; [done|].
  intros j cam loc Hcam Hloc.
  destruct (Hlook j loc Hloc) as (cam' & Hcam' & Hg).
  assert (cam' = cam) as -> by congruence.
  destruct (Hentries cam) as (a & b & c & d & e & f & g & h & i & x & y & z & HR & Ht).
  { by eapply list_elem_of_lookup_2. }
  rewrite HR, Ht in Hg |- *. cbv in Hg. injection Hg as <-.
  eexists. split; cbv; reflexivity.
Qed.

End SLAM.

(** * Concrete runs

    Key points are numbered objects and numpy's [==] on them is equality of
    the numbers. Frame 0 has key points 1 (left) and 2 (right), frame 1 has
    3 and 4, frame 2 has 5 and 6. *)

(** C2. Two calls in a row. The second call extends track 0 with the
    match (5, 6); the track it creates, track 1, holds the same match (5, 6):
    the match that an existing track absorbed is added as a new track too. *)
Theorem extend_tracks_readds_absorbed :
  exists db t0 t1,
    ingest Nat.eqb [(0, ([1%nat], [2%nat]), ([3%nat], [4%nat]));
                    (1, ([3%nat], [4%nat]), ([5%nat], [6%nat]))] TracksDB_init = Ok db /\
    tracks db !! 0 = Some t0 /\ tracks db !! 1 = Some t1 /\
    frame_ids t0 = [0; 1] /\ kp t0 !! 1 = Some (KpPair [5%nat] [6%nat]) /\
    frame_ids t1 = [1] /\ kp t1 !! 1 = Some (KpPair [5%nat] [6%nat]) /\
    track_ids db = [0; 1].
Proof.
  eexists _, _, _. split; [vm_compute; reflexivity|].
  split; [vm_compute; reflexivity|]. split; [vm_compute; reflexivity|].
  repeat split.
Qed.

(** Two calls for frames 0 and 1: track 0 ends with the frames [0, 1]. *)
Lemma frame_ids_strictly_increasing_witness :
  exists db t,
    ingest Nat.eqb (take 2 [(0, ([1%nat], [2%nat]), ([3%nat], [4%nat]));
                            (1, ([3%nat], [4%nat]), ([5%nat], [6%nat]))])
           TracksDB_init = Ok db /\
    tracks db !! 0 = Some t /\ frame_ids t = [0; 1] /\
    StronglySorted Z.lt (frame_ids t) /\ NoDup (frame_ids t).
Proof.
  eexists _, _. split; [vm_compute; reflexivity|].
  split; [vm_compute; reflexivity|]. split; [reflexivity|].
  eapply (frame_ids_strictly_increasing Nat.eqb
            [(0, ([1%nat], [2%nat]), ([3%nat], [4%nat]));
             (1, ([3%nat], [4%nat]), ([5%nat], [6%nat]))] 2 _ 0).
  - repeat constructor.
  - vm_compute; reflexivity.
  - vm_compute; reflexivity.
Defined.

(** The call for frame 1 after the call for frame 0, seen from track 0. *)
Lemma extend_tracks_append_only_witness :
  exists db db' t,
    ingest Nat.eqb [(0, ([1%nat], [2%nat]), ([3%nat], [4%nat]))] TracksDB_init = Ok db /\
    extend_tracks Nat.eqb 1 ([3%nat], [4%nat]) ([5%nat], [6%nat]) db = Ok db' /\
    tracks db !! 0 = Some t /\
    exists t', tracks db' !! 0 = Some t' /\
      frame_ids t `prefix_of` frame_ids t' /\
      (forall g, g <> 1 -> kp t' !! g = kp t !! g) /\
      (forall g, g < 1 -> kp t' !! g = kp t !! g).
Proof.
  eexists _, _, _. split; [vm_compute; reflexivity|].
  split; [vm_compute; reflexivity|]. split; [vm_compute; reflexivity|].
  eapply (extend_tracks_append_only Nat.eqb
            [(0, ([1%nat], [2%nat]), ([3%nat], [4%nat]))]
            1 ([3%nat], [4%nat]) ([5%nat], [6%nat]) _ _ 0).
  - vm_compute; reflexivity.
  - vm_compute; reflexivity.
  - vm_compute; reflexivity.
Defined.

(** A call with empty arrays after one call: it creates track 1. *)
Lemma extend_tracks_creates_one_track_witness :
  exists db,
    ingest Nat.eqb [(0, ([1%nat], [2%nat]), ([3%nat], [4%nat]))] TracksDB_init = Ok db /\
    db_track_id db = 1 /\ track_ids db = [0] /\
    (exists db', extend_tracks Nat.eqb 1 ([], []) ([], []) db = Ok db') /\
    (forall db', extend_tracks Nat.eqb 1 ([], []) ([], []) db = Ok db' ->
       db_track_id db' = 2 /\ track_ids db' = [0; 1] /\
       tracks db' !! 1 = Some (new_track 1 1 ([], []))).
Proof.
  eexists. split; [vm_compute; reflexivity|].
  destruct (extend_tracks_creates_one_track Nat.eqb
              [(0, ([1%nat], [2%nat]), ([3%nat], [4%nat]))] 1 ([], []) ([], [])
              _ eq_refl) as (Hc & Hi & Htot & Hnew).
  split; [exact Hc|]. split; [exact Hi|]. split.
  - apply Htot. split; simpl; lia.
  - intros db' Hdb'. destruct (Hnew db' Hdb') as (H1 & H2 & _ & H4 & _).
    split; [exact H1|]. split; [exact H2|]. exact H4.
Defined.

(** The store of track 0 over frames [0, 1, 2] and track 1 over [1, 2]. *)
Lemma get_track_ids_spec_witness :
  let store : @TracksDB nat :=
    add_new_track (mkTrack 1 [1; 2] ∅) (add_new_track (mkTrack 0 [0; 1; 2] ∅) TracksDB_init) in
  db_consistent store /\
  (exists l, get_track_ids 1 store = Ok l /\
     forall tid, tid ∈ l <-> exists t, tracks store !! tid = Some t /\ 1 ∈ frame_ids t) /\
  get_track_ids 0 store = Ok [0] /\
  get_track_ids 1 store = Ok [0; 1] /\
  get_track_ids 2 store = Ok [0; 1].
Proof.
  intros store.
  assert (db_consistent store) as Hc.
  { apply add_new_track_consistent, add_new_track_consistent, TracksDB_init_consistent. }
  split; [exact Hc|].
  destruct (get_track_ids_spec store 1 0 1 ∅ ∅ Hc) as [Hgen Hscen]; [lia|].
  split; [exact Hgen | exact Hscen].
Defined.

(** After one call for frame 0, asking track 0 for frame 0 raises
    [AttributeError]; asking it for frame 1 returns [None]. *)
Lemma get_feature_locations_raises_witness :
  exists db t,
    ingest Nat.eqb [(0, ([1%nat], [2%nat]), ([3%nat], [4%nat]))] TracksDB_init = Ok db /\
    tracks db !! 0 = Some t /\ frame_ids t = [0] /\
    get_feature_locations (fun k : nat => (k, k)) 0 0 db = Raise AttributeError /\
    (get_feature_locations (fun k : nat => (k, k)) 0 0 db = Raise KeyError \/
     get_feature_locations (fun k : nat => (k, k)) 0 0 db = Raise AttributeError) /\
    get_feature_locations (fun k : nat => (k, k)) 1 0 db = Ok None.
Proof.
  eexists _, _. split; [vm_compute; reflexivity|].
  split; [vm_compute; reflexivity|]. split; [reflexivity|].
  split; [vm_compute; reflexivity|].
  split.
  - apply (get_feature_locations_raises Nat.eqb (fun k : nat => (k, k))
             [(0, ([1%nat], [2%nat]), ([3%nat], [4%nat]))] _ 0 _ 0 eq_refl eq_refl).
    simpl. left.
  - apply (get_feature_locations_raises Nat.eqb (fun k : nat => (k, k))
             [(0, ([1%nat], [2%nat]), ([3%nat], [4%nat]))] _ 0 _ 1 eq_refl eq_refl).
    simpl. intros H. apply list_elem_of_singleton in H. discriminate.
Defined.

(** A run that starts at frame 5: the position of frame 5 in the track's
    list is 0, which is no key of [kp]. *)
Example get_feature_locations_key_error :
  exists db,
    ingest Nat.eqb [(5, ([1%nat], [2%nat]), ([3%nat], [4%nat]))] TracksDB_init = Ok db /\
    get_feature_locations (fun k : nat => (k, k)) 5 0 db = Raise KeyError.
Proof. eexists. split; vm_compute; reflexivity. Qed.

(** A store holding single key points, as [get_feature_locations] expects
    them, would make it return the two coordinates of [pt]: never three. *)
Example get_feature_locations_single_point :
  get_feature_locations (fun k : nat => (k, k)) 0 0
    (add_new_track (mkTrack 0 [0] {[0 := KpPoint 7%nat]}) TracksDB_init)
  = Ok (Some (7%nat, 7%nat)).
Proof. vm_compute; reflexivity. Qed.

(** Poses as integers under addition: three cameras and two windows. *)
Lemma relative_to_absolute_poses_chain_witness :
  [1; 2; 3] <> [] /\ [0; 0; 0] <> [] /\
  exists abs_c abs_p abs_i,
    relative_to_absolute_poses Z.add Z.add [1; 2; 3] [[10]; [20; 30]] [0; 0; 0]
      = Ok (abs_c, abs_p, abs_i) /\
    abs_c !! 0%nat = [1; 2; 3] !! 0%nat /\
    length abs_c = S (Nat.min (length [1; 2; 3] - 1)
                        (Nat.min (length [[10]; [20; 30]]) (length [0; 0; 0] - 1))) /\
    (S (length [[10]; [20; 30]]) = length [1; 2; 3] ->
     length [0; 0; 0] = length [1; 2; 3] -> length abs_c = length [1; 2; 3]) /\
    (forall i, (S i < length abs_c)%nat ->
       exists prev rel, abs_c !! i = Some prev /\ [1; 2; 3] !! S i = Some rel /\
                        abs_c !! S i = Some (prev + rel)).
Proof.
  split; [discriminate|]. split; [discriminate|].
  apply (relative_to_absolute_poses_chain Z.add Z.add [1; 2; 3] [[10]; [20; 30]] [0; 0; 0]);
    discriminate.
Defined.

Example relative_to_absolute_poses_run :
  relative_to_absolute_poses Z.add Z.add [1; 2; 3] [[10]; [20; 30]] [0; 0; 0]
  = Ok ([1; 3; 6], [13; 26; 36], [0; 0; 0]).
Proof. reflexivity. Qed.

(** [zip] drops the cameras that have no point set. *)
Example relative_to_absolute_poses_short_points :
  relative_to_absolute_poses Z.add Z.add [1; 2; 3] [[10]] [0; 0; 0]
  = Ok ([1; 3], [13], [0; 0]).
Proof. reflexivity. Qed.



Example fix_ext_mat_run :
  fix_ext_mat 0 Z.add Z.mul Z.opp [[0; -1; 0; 1]; [1; 0; 0; 2]; [0; 0; 1; 3]]
  = Ok [[0; 1; 0; -2]; [-1; 0; 0; 1]; [0; 0; 1; -3]].
Proof. reflexivity. Qed.

(** Without [R.T @ R = I] the second application does not give the matrix
    back: here [R] doubles the first coordinate. *)
Example fix_ext_mat_not_orthogonal :
  exists m', fix_ext_mat 0 Z.add Z.mul Z.opp
               [[2; 0; 0; 1]; [0; 1; 0; 0]; [0; 0; 1; 0]] = Ok m' /\
             fix_ext_mat 0 Z.add Z.mul Z.opp m'
               = Ok [[2; 0; 0; 4]; [0; 1; 0; 0]; [0; 0; 1; 0]].
Proof. eexists. split; reflexivity. Qed.

(** An optimizer whose joint information is the identity matrix, and the
    inverse defined on identity matrices. *)
Lemma q6_1_rel_cov_shape_witness :
  let identity (n : nat) : Matrix (F:=Z) :=
    map (fun i => map (fun j => if Nat.eqb i j then 1 else 0) (seq 0 n)) (seq 0 n) in
  let joint (_ : unit) (keys : list Z) : result (Matrix (F:=Z)) :=
    Ok (identity (6 * length keys)%nat) in
  let inv (a : Matrix (F:=Z)) :=
    if decide (a = identity (length a)) then Ok a else Raise LinAlgError in
  exists rel_cov,
    q6_1_rel_cov (fun _ i => i) joint inv tt = Ok rel_cov /\
    (exists info, joint tt [0; 7] = Ok info /\ shape info = (12, 12)%nat /\
                  inv info = Ok rel_cov) /\
    shape rel_cov = (12, 12)%nat /\ shape rel_cov <> (6, 6)%nat.
Proof.
  intros identity joint inv.
  eexists. split; [vm_compute; reflexivity|].
  apply (q6_1_rel_cov_shape (fun _ i => i) joint inv).
  - intros m frames a _ H.
    assert (a = identity (6 * length frames)%nat) as ->.
    { unfold joint in H. rewrite length_map in H. congruence. }
    generalize (6 * length frames)%nat. intros [|n]; [done|].
    unfold identity, shape. simpl. by rewrite !length_map, !length_seq.
  - intros a b. subst inv. simpl. destruct (decide _); [|discriminate].
    intros H. by injection H as <-.
  - vm_compute; reflexivity.
Defined.

(** * Concrete runs for the further properties *)

(** The call for frame 1 continues track 0, whose entry at frame 0 holds the
    key points 3 and 4 of the current arrays. *)
Lemma extend_tracks_extends_iff_witness :
  exists db db' t,
    ingest Nat.eqb [(0, ([1%nat], [2%nat]), ([3%nat], [4%nat]))] TracksDB_init = Ok db /\
    extend_tracks Nat.eqb 1 ([3%nat], [4%nat]) ([5%nat], [6%nat]) db = Ok db' /\
    tracks db !! 0 = Some t /\
    exists t', tracks db' !! 0 = Some t' /\
      (continues Nat.eqb 1 ([3%nat], [4%nat]) t -> frame_ids t' = frame_ids t ++ [1]) /\
      (~ continues Nat.eqb 1 ([3%nat], [4%nat]) t -> t' = t).
Proof.
  eexists _, _, _. split; [vm_compute; reflexivity|].
  split; [vm_compute; reflexivity|]. split; [vm_compute; reflexivity|].
  eapply (extend_tracks_extends_iff Nat.eqb
            [(0, ([1%nat], [2%nat]), ([3%nat], [4%nat]))]
            1 ([3%nat], [4%nat]) ([5%nat], [6%nat]) _ _ 0).
  - vm_compute; reflexivity.
  - vm_compute; reflexivity.
  - vm_compute; reflexivity.
Defined.

(** After the calls for frames 0 and 1, track 0 spans the frames 0 and 1. *)
Lemma frame_ids_consecutive_witness :
  exists db t,
    ingest Nat.eqb [(0, ([1%nat], [2%nat]), ([3%nat], [4%nat]));
                    (1, ([3%nat], [4%nat]), ([5%nat], [6%nat]))] TracksDB_init = Ok db /\
    tracks db !! 0 = Some t /\ frame_ids t = [0; 1] /\
    exists c, frame_ids t = seqZ c (Z.of_nat (length (frame_ids t))).
Proof.
  eexists _, _. split; [vm_compute; reflexivity|].
  split; [vm_compute; reflexivity|]. split; [reflexivity|].
  eapply (frame_ids_consecutive Nat.eqb
            [(0, ([1%nat], [2%nat]), ([3%nat], [4%nat]));
             (1, ([3%nat], [4%nat]), ([5%nat], [6%nat]))] _ 0).
  - repeat constructor.
  - vm_compute; reflexivity.
  - vm_compute; reflexivity.
Defined.

(** A track with the key points 3 and 7 at frame 0; only 3 is among the
    current left key points, at position 1, so the entry of frame 1 is the
    pair at position 1 of the next arrays. *)
Lemma add_frame_entry_witness :
  let t := mkTrack 0 [0] {[0 := KpPair [3%nat; 7%nat] [4%nat; 8%nat]]} in
  exists t',
    add_frame Nat.eqb 1 ([9%nat; 3%nat], [9%nat; 4%nat]) ([10%nat; 5%nat], [11%nat; 6%nat]) t
      = Ok t' /\
    kp t' !! 1 = Some (KpPair [5%nat] [6%nat]) /\
    exists lst l r nl nr,
      last (frame_ids t) = Some lst /\
      kp t !! lst = Some (KpPair l r) /\
      kp t' !! 1 = Some (KpPair nl nr) /\
      length nl = length nr /\ (length nl <= length l)%nat /\
      forall j a b, nl !! j = Some a -> nr !! j = Some b ->
        exists i k, k ∈ l /\ np_where_first Nat.eqb [9%nat; 3%nat] k = Ok i /\
          (exists c, [9%nat; 3%nat] !! i = Some c /\ Nat.eqb c k = true) /\
          [10%nat; 5%nat] !! i = Some a /\ [11%nat; 6%nat] !! i = Some b.
Proof.
  intros t. eexists. split; [vm_compute; reflexivity|].
  split; [vm_compute; reflexivity|].
  apply (add_frame_entry Nat.eqb 1 ([9%nat; 3%nat], [9%nat; 4%nat])
           ([10%nat; 5%nat], [11%nat; 6%nat]) t).
  vm_compute; reflexivity.
Defined.

(** Two calls: the store lists the frames 0 and 1 and has two tracks. *)
Lemma ingest_frame_ids_witness :
  exists db,
    ingest Nat.eqb [(0, ([1%nat], [2%nat]), ([3%nat], [4%nat]));
                    (1, ([3%nat], [4%nat]), ([5%nat], [6%nat]))] TracksDB_init = Ok db /\
    db_frame_ids db = [0; 1] /\
    length (db_frame_ids db) = length (track_ids db).
Proof.
  eexists. split; [vm_compute; reflexivity|].
  apply (ingest_frame_ids Nat.eqb
           [(0, ([1%nat], [2%nat]), ([3%nat], [4%nat]));
            (1, ([3%nat], [4%nat]), ([5%nat], [6%nat]))]).
  vm_compute; reflexivity.
Defined.

(** The second of two calls created track 1, which starts at frame 1. *)
Lemma track_of_call_witness :
  exists db,
    ingest Nat.eqb [(0, ([1%nat], [2%nat]), ([3%nat], [4%nat]));
                    (1, ([3%nat], [4%nat]), ([5%nat], [6%nat]))] TracksDB_init = Ok db /\
    exists t, tracks db !! 1 = Some t /\ track_id t = 1 /\
              head (frame_ids t) = Some 1 /\
              kp t !! 1 = Some (KpPair [5%nat] [6%nat]).
Proof.
  eexists. split; [vm_compute; reflexivity|].
  apply (track_of_call Nat.eqb
           [(0, ([1%nat], [2%nat]), ([3%nat], [4%nat]));
            (1, ([3%nat], [4%nat]), ([5%nat], [6%nat]))]
           1 1 ([3%nat], [4%nat]) ([5%nat], [6%nat])).
  - repeat constructor.
  - vm_compute; reflexivity.
  - reflexivity.
Defined.

(** After two calls, id 1 has a frame list and id 2 has none. *)
Lemma get_frame_ids_defined_witness :
  exists db,
    ingest Nat.eqb [(0, ([1%nat], [2%nat]), ([3%nat], [4%nat]));
                    (1, ([3%nat], [4%nat]), ([5%nat], [6%nat]))] TracksDB_init = Ok db /\
    (exists l, get_frame_ids 1 db = Ok l /\ l <> []) /\
    get_frame_ids 2 db = Raise KeyError.
Proof.
  eexists. split; [vm_compute; reflexivity|]. split.
  - apply (get_frame_ids_defined Nat.eqb
             [(0, ([1%nat], [2%nat]), ([3%nat], [4%nat]));
              (1, ([3%nat], [4%nat]), ([5%nat], [6%nat]))] _ 1 eq_refl).
    simpl. lia.
  - apply (get_frame_ids_defined Nat.eqb
             [(0, ([1%nat], [2%nat]), ([3%nat], [4%nat]));
              (1, ([3%nat], [4%nat]), ([5%nat], [6%nat]))] _ 2 eq_refl).
    simpl. lia.
Defined.

(** A track added by hand under id 0 of a new store, then one call: the
    track of frame 7 is replaced and the id 0 is listed twice. *)
Lemma add_new_track_then_extend_witness :
  let t := mkTrack 0 [7] {[7 := KpPair [1%nat] [2%nat]]} in
  exists db',
    extend_tracks Nat.eqb 0 ([1%nat], [2%nat]) ([3%nat], [4%nat])
      (add_new_track t TracksDB_init) = Ok db' /\
    tracks db' !! 0 = Some (new_track 0 0 ([3%nat], [4%nat])) /\
    track_ids db' = [0; 0].
Proof.
  intros t. eexists. split; [vm_compute; reflexivity|].
  apply (add_new_track_then_extend Nat.eqb t 0 ([1%nat], [2%nat]) ([3%nat], [4%nat])
           TracksDB_init).
  - reflexivity.
  - vm_compute; reflexivity.
Defined.

(** The same track added with [add_track]: it is kept under id 0 and the
    call creates track 1. *)
Lemma add_track_then_extend_witness :
  let t := mkTrack 0 [7] {[7 := KpPair [1%nat] [2%nat]]} in
  exists db',
    extend_tracks Nat.eqb 0 ([1%nat], [2%nat]) ([3%nat], [4%nat])
      (add_track t TracksDB_init) = Ok db' /\
    db_wf db' /\
    (exists t', tracks db' !! 0 = Some t' /\ grows 0 t t') /\
    tracks db' !! 1 = Some (new_track 1 0 ([3%nat], [4%nat])).
Proof.
  intros t. eexists. split; [vm_compute; reflexivity|].
  apply (add_track_then_extend Nat.eqb t 0 ([1%nat], [2%nat]) ([3%nat], [4%nat])
           TracksDB_init).
  - apply TracksDB_init_wf.
  - split; [done|]. split.
    + intros g Hg. apply list_elem_of_singleton in Hg as ->.
      simpl. rewrite lookup_singleton_eq. eauto.
    + apply map_Forall_singleton. by exists [1%nat], [2%nat].
  - vm_compute; reflexivity.
Defined.

(** After two calls, the tracks at frame 1 are 0 and 1, in this order. *)
Lemma get_track_ids_increasing_witness :
  exists db,
    ingest Nat.eqb [(0, ([1%nat], [2%nat]), ([3%nat], [4%nat]));
                    (1, ([3%nat], [4%nat]), ([5%nat], [6%nat]))] TracksDB_init = Ok db /\
    get_track_ids 1 db = Ok [0; 1] /\
    exists l, get_track_ids 1 db = Ok l /\ StronglySorted Z.lt l /\
              forall tid, tid ∈ l -> 0 <= tid < 2.
Proof.
  eexists. split; [vm_compute; reflexivity|]. split; [vm_compute; reflexivity|].
  apply (get_track_ids_increasing Nat.eqb
           [(0, ([1%nat], [2%nat]), ([3%nat], [4%nat]));
            (1, ([3%nat], [4%nat]), ([5%nat], [6%nat]))] _ 1).
  vm_compute; reflexivity.
Defined.

(** The call for frame 1 with empty next arrays: track 0 matches at
    position 0, which the next arrays do not have. *)
Lemma extend_tracks_raises_IndexError_witness :
  exists db,
    ingest Nat.eqb [(0, ([1%nat], [2%nat]), ([3%nat], [4%nat]))] TracksDB_init = Ok db /\
    extend_tracks Nat.eqb 1 ([3%nat], [4%nat]) ([], []) db = Raise IndexError /\
    (IndexError = IndexError /\
     ((length (@nil nat) < length [3%nat])%nat \/ (length (@nil nat) < length [3%nat])%nat)).
Proof.
  eexists. split; [vm_compute; reflexivity|]. split; [vm_compute; reflexivity|].
  eapply (extend_tracks_raises_IndexError Nat.eqb
           [(0, ([1%nat], [2%nat]), ([3%nat], [4%nat]))]
           1 ([3%nat], [4%nat]) ([], []) _ IndexError).
  - vm_compute; reflexivity.
  - vm_compute; reflexivity.
Defined.

(** A store is pickled as itself, and every file can be written. *)
Lemma serialize_deserialize_witness :
  exists db fs',
    ingest Nat.eqb [(0, ([1%nat], [2%nat]), ([3%nat], [4%nat]));
                    (1, ([3%nat], [4%nat]), ([5%nat], [6%nat]))] TracksDB_init = Ok db /\
    serialize (Blob:=TracksDB) Ok (fun _ => true) "tracks_db.pkl" db ∅ = Ok fs' /\
    deserialize Ok "tracks_db.pkl" fs' = Ok db /\
    deserialize Ok "other.pkl" fs' = Raise OSError.
Proof.
  eexists _, _. split; [vm_compute; reflexivity|].
  match goal with
  | |- serialize _ _ ?name ?db ?fs = _ /\ _ =>
      destruct (serialize_deserialize (KeyPoint:=nat) Ok Ok
                  (fun d b H => eq_sym H) (fun _ => true) name db fs db
                  eq_refl eq_refl)
        as (fs' & db' & Hser & Hfs & Hde & _ & _ & _ & _ & Hdb)
  end.
  subst. split; [exact Hser|]. split; [exact Hde | reflexivity].
Defined.

(** A front end that rejects the pair of frame 1: the run over
    [range(0, 3)] builds two tracks, for the frames 0 and 2, and writes
    them to [tracks_db.pkl]. *)
Lemma run_sequence_total_witness :
  let front (idx : Z) : option (@Inliers nat * @Inliers nat) :=
    if decide (idx = 1) then None else Some (([1%nat], [2%nat]), ([3%nat], [4%nat])) in
  exists db fs',
    run_sequence (Blob:=TracksDB) Nat.eqb front Ok (fun _ => true) 0 3 ∅ = Ok (db, fs') /\
    deserialize Ok "tracks_db.pkl" fs' = Ok db /\
    track_ids db = [0; 1] /\
    (exists t, tracks db !! 1 = Some t /\ track_id t = 1 /\
               head (frame_ids t) = Some 2 /\
               kp t !! 2 = Some (KpPair [3%nat] [4%nat])) /\
    forall tid t g, tracks db !! tid = Some t -> g ∈ frame_ids t ->
      0 <= g < 3 /\ is_Some (front g).
Proof.
  intros front.
  destruct (run_sequence_total (Blob:=TracksDB) Nat.eqb front Ok Ok
              (fun db b H => eq_sym H) (fun _ => true) 0 3 ∅)
    as (db & fs' & Hrun & Hde & _ & _ & Hids & _ & Htrack & _ & Hframes).
  { intros idx curr next. unfold front. destruct (decide (idx = 1)); [discriminate|].
    intros H. injection H as <- <-. split; simpl; lia. }
  { reflexivity. }
  { intros db. by exists db. }
  exists db, fs'. split; [exact Hrun|]. split; [exact Hde|].
  split; [exact Hids|]. split; [|exact Hframes].
  destruct (Htrack 1%nat 2 ([1%nat], [2%nat]) ([3%nat], [4%nat]) eq_refl) as [_ Ht].
  exact Ht.
Defined.

(** Poses as integers under addition, with initial cameras 5, 6, 7. *)
Lemma relative_to_absolute_poses_init_chain_witness :
  exists abs_c abs_p abs_i,
    relative_to_absolute_poses Z.add Z.add [1; 2; 3] [[10]; [20; 30]] [5; 6; 7]
      = Ok (abs_c, abs_p, abs_i) /\
    length abs_i = length abs_c /\
    abs_i !! 0%nat = [5; 6; 7] !! 0%nat /\
    (forall i, (S i < length abs_i)%nat ->
       exists prev rel, abs_i !! i = Some prev /\ [5; 6; 7] !! S i = Some rel /\
                        abs_i !! S i = Some (prev + rel)).
Proof.
  apply (relative_to_absolute_poses_init_chain Z.add Z.add [1; 2; 3] [[10]; [20; 30]]
           [5; 6; 7]); discriminate.
Defined.

Lemma relative_to_absolute_poses_points_witness :
  exists abs_c abs_p abs_i,
    relative_to_absolute_poses Z.add Z.add [1; 2; 3] [[10]; [20; 30]] [5; 6; 7]
      = Ok (abs_c, abs_p, abs_i) /\
    abs_p = concat (zip_with (fun c pts => map (Z.add c) pts) (tail abs_c)
                             [[10]; [20; 30]]).
Proof.
  apply (relative_to_absolute_poses_points Z.add Z.add [1; 2; 3] [[10]; [20; 30]]
           [5; 6; 7]); discriminate.
Defined.


Example get_bundle_windows_run :
  get_bundle_windows [0; 3; 5] = Ok [[0; 1; 2; 3]; [3; 4; 5]].
Proof. reflexivity. Qed.

(** Keyframes that go down give an empty window, not an exception. *)
Example get_bundle_windows_decreasing :
  get_bundle_windows [5; 3] = Ok [[]].
Proof. reflexivity. Qed.

Lemma get_bundle_windows_cover_witness :
  exists ws, get_bundle_windows [0; 3; 5] = Ok ws /\
    (forall g, (exists w, w ∈ ws /\ g ∈ w) <-> 0 <= g <= 5) /\
    (forall i j wi wj g, (i < j)%nat ->
       ws !! i = Some wi -> ws !! j = Some wj -> g ∈ wi -> g ∈ wj ->
       j = S i /\ [0; 3; 5] !! j = Some g).
Proof.
  apply (get_bundle_windows_cover [0; 3; 5] 0 5).
  - repeat constructor; lia.
  - reflexivity.
  - reflexivity.
  - simpl. lia.
Defined.

(** One camera given as the pair of its rotation and its translation. *)
Lemma cameras_to_locations_spec_witness :
  let cam : list (list Z) * list Z := ([[0; -1; 0]; [1; 0; 0]; [0; 0; 1]], [1; 2; 3]) in
  exists locs, cameras_to_locations 0 Z.add Z.mul Z.opp fst snd [cam] = Ok locs /\
    locs = [[-2; 1; -3]] /\
    length locs = length [cam] /\
    forall i c loc, [cam] !! i = Some c -> locs !! i = Some loc ->
      exists m', fix_ext_mat 0 Z.add Z.mul Z.opp (with_column (fst c) (snd c)) = Ok m' /\
                 col 3 m' = Ok loc.
Proof.
  intros cam.
  destruct (cameras_to_locations_spec 0 Z.add Z.mul Z.opp fst snd [cam])
    as (locs & Hlocs & Hlen & Hfix).
  { intros c Hc. apply list_elem_of_singleton in Hc as ->.
    split; [reflexivity|]. split; [repeat constructor | reflexivity]. }
  exists locs. split; [exact Hlocs|]. split.
  - vm_compute in Hlocs. by injection Hlocs as <-.
  - split; [exact Hlen | exact Hfix].
Defined.

